(** * Igus robot controller: the Robot orchestration layer (src/robot.js)

    A shallow embedding of the [Robot] class of src/robot.js, the class that
    owns the motors of the arm, fans commands out to them, folds their
    events into the whole-robot flags and applies configuration updates.

    What is modelled, and how:
    - a JavaScript object used as a dictionary ([this.config], the property
      bag of a [Motor]) is a [gmap string _] of its own properties. The
      names every object inherits from [Object.prototype] ([inherited_name]
      below, [__proto__] among them) are outside the model: the theorems
      whose outcome depends on such a name exclude it by a hypothesis;
    - [this.motorMap] and [this.motors] hold the same [Motor] objects
      ([this.motors = Object.values(this.motorMap)]): they are one
      insertion-ordered store [motors : list (string * Motor)], read by
      position for the array and by key for the map;
    - an operation is a function from the robot to a completion: it either
      returns normally or throws, and in both cases carries the robot as the
      operation left it (what was assigned before a throw stays assigned);
    - [motor.js] is not part of the sources: the methods of a [Motor] are the
      fields of a [MotorClass], over which every definition is parameterised;
      a method acts on its own motor and returns or raises;
    - [emit], the calls of motor methods and [fs.writeFileSync] are recorded,
      in order, in the [trace] of the robot; subscribers are observers, and
      the events of the motors are delivered as separate steps;
    - the CAN channel and the logger are not modelled. *)

From Stdlib Require Import ZArith Ascii String List Lia.
From stdpp Require Import base option list gmap strings.
Import ListNotations.

Open Scope string_scope.
Open Scope list_scope.

(** ** JavaScript values *)

Inductive jsval : Type :=
  | JUndefined
  | JNull
  | JBool (b : bool)
  | JNum (z : Z)
  | JStr (s : string).

(** [value == null]: true of [null] and of [undefined] only. *)
Definition loosely_null (v : jsval) : bool :=
  match v with
  | JUndefined | JNull => true
  | _ => false
  end.

(** The truth value a condition such as [motor.home] takes. *)
Definition truthy (v : jsval) : bool :=
  match v with
  | JUndefined | JNull => false
  | JBool b => b
  | JNum z => negb (z =? 0)%Z
  | JStr s => negb (String.eqb s "")
  end.

Inductive jserror : Type :=
  | TypeError
  | Thrown (v : jsval).

(** ** Motors (the collaborator of motor.js) *)

Record Motor : Type := mkMotor { props : gmap string jsval }.

(** [motor.k] *)
Definition getprop (m : Motor) (k : string) : jsval :=
  default JUndefined (props m !! k).

(** [motor[k] = v] *)
Definition setprop (k : string) (v : jsval) (m : Motor) : Motor :=
  {| props := <[k := v]> (props m) |}.

Inductive command : Type :=
  | WriteJointSetPoints
  | SetPosition (position velocity : jsval)
  | GoHome
  | Reset
  | Enable
  | Disable
  | Zero
  | Calibrate
  | QueryPosition
  | QueryParameter (index subindex : jsval)
  | UpdateZeroStep.

Inductive mresult : Type :=
  | Ret (m : Motor)
  | Raise (e : jserror) (m : Motor).

Record MotorClass : Type := mkMotorClass {
  construct : string -> Z -> Motor;
  method : command -> Motor -> mresult
}.

(** ** Configuration and the trace of outward effects *)

(** An entry of [this.config]: a value that is not an object, or an object
    (the parameters of one joint). *)
Inductive centry : Type :=
  | CVal (v : jsval)
  | CObj (o : gmap string jsval).

Inductive effect : Type :=
  | Emit (event : string)
  | Call (joint : string) (c : command)
  | WriteFile (c : gmap string centry).

(** The file config.json as [readConfig] finds it. *)
Inductive disk : Type :=
  | Absent
  | Holds (c : gmap string centry)
  | Unreadable.

(** ** The robot *)

Record Robot : Type := mkRobot {
  id : string;
  stopped : bool;
  ready : bool;
  home : bool;
  homing : bool;
  moving : bool;
  config : option (gmap string centry);
  motors : list (string * Motor);
  trace : list effect
}.

Definition uiFrequency : Z := 1000.
Definition cycleTime : Z := 50.

Definition set_stopped (b : bool) (r : Robot) : Robot :=
  mkRobot (id r) b (ready r) (home r) (homing r) (moving r)
          (config r) (motors r) (trace r).
Definition set_ready (b : bool) (r : Robot) : Robot :=
  mkRobot (id r) (stopped r) b (home r) (homing r) (moving r)
          (config r) (motors r) (trace r).
Definition set_home (b : bool) (r : Robot) : Robot :=
  mkRobot (id r) (stopped r) (ready r) b (homing r) (moving r)
          (config r) (motors r) (trace r).
Definition set_homing (b : bool) (r : Robot) : Robot :=
  mkRobot (id r) (stopped r) (ready r) (home r) b (moving r)
          (config r) (motors r) (trace r).
Definition set_moving (b : bool) (r : Robot) : Robot :=
  mkRobot (id r) (stopped r) (ready r) (home r) (homing r) b
          (config r) (motors r) (trace r).
Definition set_config (c : option (gmap string centry)) (r : Robot) : Robot :=
  mkRobot (id r) (stopped r) (ready r) (home r) (homing r) (moving r)
          c (motors r) (trace r).
Definition set_motors (ms : list (string * Motor)) (r : Robot) : Robot :=
  mkRobot (id r) (stopped r) (ready r) (home r) (homing r) (moving r)
          (config r) ms (trace r).
Definition log (e : effect) (r : Robot) : Robot :=
  mkRobot (id r) (stopped r) (ready r) (home r) (homing r) (moving r)
          (config r) (motors r) (trace r ++ [e]).

(** The robot with another store and another trace. *)
Definition with_store (ms : list (string * Motor)) (tr : list effect)
  (r : Robot) : Robot :=
  mkRobot (id r) (stopped r) (ready r) (home r) (homing r) (moving r)
          (config r) ms tr.

(** The five flags, in the order of [meta]. *)
Definition flags (r : Robot) : bool * bool * bool * bool * bool :=
  (stopped r, ready r, home r, homing r, moving r).

(** ** Completions and sequencing *)

Inductive completion : Type :=
  | Normal (r : Robot)
  | Throw (e : jserror) (r : Robot).

Definition state_of (c : completion) : Robot :=
  match c with
  | Normal r => r
  | Throw _ r => r
  end.

Definition action : Type := Robot -> completion.

Definition skip : action := Normal.

Definition andThen (a b : action) : action :=
  fun r =>
    match a r with
    | Normal r' => b r'
    | Throw e r' => Throw e r'
    end.

Declare Scope action_scope.
Delimit Scope action_scope with act.
Bind Scope action_scope with action.
Notation "a ;; b" := (andThen a b)
  (at level 100, b at level 200, right associativity) : action_scope.
Open Scope action_scope.

(** How an operation ends: with the error [e], or normally. *)
Definition finish (e : option jserror) (r : Robot) : completion :=
  match e with
  | None => Normal r
  | Some err => Throw err r
  end.

Definition assign (f : Robot -> Robot) : action := fun r => Normal (f r).

Definition when (b : bool) (a : action) : action := if b then a else skip.

(** [this.emit(event)] *)
Definition emit (event : string) : action := assign (log (Emit event)).

(** ** Keys: [key.includes('.')] and [key.split('.')] *)

Definition is_dot (c : ascii) : bool := Ascii.eqb c ".".

Fixpoint includes_dot (s : string) : bool :=
  match s with
  | EmptyString => false
  | String c s' => is_dot c || includes_dot s'
  end.

Fixpoint split_dot (s : string) : list string :=
  match s with
  | EmptyString => [EmptyString]
  | String c s' =>
      if is_dot c then EmptyString :: split_dot s'
      else match split_dot s' with
           | [] => [String c EmptyString]
           | seg :: segs => String c seg :: segs
           end
  end.

(** The property names of [Object.prototype]. Under these names
    [this.config[g]] and [this.motorMap[g]] find an object of the runtime
    instead of [undefined], and an assignment to [__proto__] goes through a
    setter; the store and the config of the model hold own properties only. *)
Definition object_prototype_names : list string :=
  ["constructor"; "__defineGetter__"; "__defineSetter__"; "hasOwnProperty";
   "__lookupGetter__"; "__lookupSetter__"; "isPrototypeOf";
   "propertyIsEnumerable"; "toString"; "valueOf"; "__proto__";
   "toLocaleString"].

Definition inherited_name (s : string) : bool :=
  existsb (String.eqb s) object_prototype_names.

(** [this.motorMap[id]], as the position of the motor in the store, for an
    [id] that is not an [inherited_name]. *)
Fixpoint motorMap (key : string) (ms : list (string * Motor)) : option nat :=
  match ms with
  | [] => None
  | (k, _) :: rest =>
      if String.eqb k key then Some 0 else S <$> motorMap key rest
  end.

(** [motorMap[key] = m]: an existing key keeps its place, a new one is
    appended (the order [Object.values] follows for keys that are not
    integer-like, as [j0] is; integer-like keys would come first). *)
Fixpoint obj_set (key : string) (m : Motor) (ms : list (string * Motor))
  : list (string * Motor) :=
  match ms with
  | [] => [(key, m)]
  | (k, m0) :: rest =>
      if String.eqb k key then (k, m) :: rest
      else (k, m0) :: obj_set key m rest
  end.

(** ** The operations of the class *)

Section RobotClass.

Variable cls : MotorClass.

(** One call [motor.c(...)] on the motor at position [i] of [this.motors].
    The call is recorded, the motor is left as the method left it, and an
    error the method raises is passed on. *)
Definition invoke (i : nat) (c : command) : action :=
  fun r =>
    match motors r !! i with
    | None => Throw TypeError r
    | Some (k, m) =>
        let r1 := log (Call k c) r in
        match method cls c m with
        | Ret m' => Normal (set_motors (<[i := (k, m')]> (motors r1)) r1)
        | Raise e m' => Throw e (set_motors (<[i := (k, m')]> (motors r1)) r1)
        end
    end.

(** [this.motors.forEach(motor => motor.c())], from position [i] on, for
    [n] motors. There is no [try] around the call: an error ends the loop. *)
Fixpoint forEach_from (i n : nat) (c : command) : action :=
  match n with
  | O => skip
  | S n' => invoke i c ;; forEach_from (S i) n' c
  end.

Definition forEach (c : command) : action :=
  fun r => forEach_from 0 (length (motors r)) c r.

(** [this.motorMap[id].c(...)]: a method call on [undefined] when the map
    has no such key. *)
Definition atJoint (key : string) (c : command) : action :=
  fun r =>
    match motorMap key (motors r) with
    | None => Throw TypeError r
    | Some i => invoke i c r
    end.

(** robot.js 106-108 *)
Definition robotState : action := emit "state".

(** [this.motors.every(motor => motor.home)] *)
Definition every_home (r : Robot) : bool :=
  forallb (fun km => truthy (getprop (snd km) "home")) (motors r).

(** robot.js 113-125 *)
Definition motorHomed (_ : jsval) : action :=
  (fun r =>
     if homing r && every_home r
     then Normal (set_homing false (set_home true r))
     else Normal r) ;;
  emit "meta" ;;
  emit "state".

(** robot.js 130-141 *)
Definition writeJointSetPoints : action :=
  fun r => if stopped r then Normal r else forEach WriteJointSetPoints r.

(** robot.js 145-188 *)
Definition motorSetPosition (key : string) (position velocity : jsval)
  : action := atJoint key (SetPosition position velocity).
Definition motorHome (key : string) : action := atJoint key GoHome.
Definition motorResetErrors (key : string) : action := atJoint key Reset.
Definition motorEnable (key : string) : action := atJoint key Enable.
Definition motorDisable (key : string) : action := atJoint key Disable.
Definition motorZero (key : string) : action := atJoint key Zero.
Definition motorCalibrate (key : string) : action := atJoint key Calibrate.
Definition queryMotorPosition (key : string) : action :=
  atJoint key QueryPosition.
Definition queryMotorParamter (key : string) (index subindex : jsval)
  : action := atJoint key (QueryParameter index subindex).

(** robot.js 192-254 *)
Definition robotHome : action :=
  assign (set_homing true) ;; forEach GoHome.

Definition robotStop : action :=
  assign (set_stopped true) ;; forEach Disable ;; emit "meta".

Definition robotCenter : action :=
  assign (set_moving true) ;; forEach Zero ;; emit "meta".

Definition robotReset : action :=
  assign (set_stopped false) ;; forEach Reset ;; emit "meta".

Definition robotEnable : action :=
  assign (set_stopped false) ;; forEach Enable ;; emit "meta".

(** robot.js 278-294, the [meta] getter. [meta_motors] lists the [id] of
    each motor in the order of [this.motors]; the code builds from them an
    object keyed by id, in which motors of equal id share one entry. *)
Record Meta : Type := mkMeta {
  meta_stopped : bool;
  meta_ready : bool;
  meta_home : bool;
  meta_homing : bool;
  meta_moving : bool;
  meta_motors : list jsval
}.

Definition meta (r : Robot) : Meta :=
  {| meta_stopped := stopped r;
     meta_ready := ready r;
     meta_home := home r;
     meta_homing := homing r;
     meta_moving := moving r;
     meta_motors := map (fun km => getprop (snd km) "id") (motors r) |}.

(** robot.js 299-320. A missing file is created holding [{}]; a file that
    cannot be read or parsed leaves [this.config] undefined (the error is
    caught). *)
Definition readConfig (d : disk) : action :=
  match d with
  | Absent => assign (log (WriteFile ∅)) ;; assign (set_config (Some ∅))
  | Holds c => assign (set_config (Some c))
  | Unreadable => skip
  end.

(** robot.js 325-335. The outcome of the write does not reach the robot
    (the error is caught); serialising an undefined config writes nothing. *)
Definition writeConfig : action :=
  fun r =>
    match config r with
    | Some c => Normal (log (WriteFile c) r)
    | None => Normal r
    end.

(** [this.config[joint][param] = value] (strict mode: a property of
    [undefined], [null] or a primitive cannot be set), for a [joint] that is
    not an [inherited_name] and a [param] other than [__proto__]. *)
Definition config_set_in (joint param : string) (value : jsval) : action :=
  fun r =>
    match config r with
    | None => Throw TypeError r
    | Some c =>
        match c !! joint with
        | Some (CObj o) =>
            Normal (set_config
                      (Some (<[joint := CObj (<[param := value]> o)]> c)) r)
        | _ => Throw TypeError r
        end
    end.

(** [this.config[key] = value], for a [key] other than [__proto__]. *)
Definition config_set (key : string) (value : jsval) : action :=
  fun r =>
    match config r with
    | None => Throw TypeError r
    | Some c => Normal (set_config (Some (<[key := CVal value]> c)) r)
    end.

(** [this.motorMap[joint][param] = value], for a [joint] that is not an
    [inherited_name] and a [param] other than [__proto__]. *)
Definition motor_set (joint param : string) (value : jsval) : action :=
  fun r =>
    match motorMap joint (motors r) with
    | None => Throw TypeError r
    | Some i =>
        match motors r !! i with
        | None => Throw TypeError r
        | Some (k, m) =>
            Normal (set_motors
                      (<[i := (k, setprop param value m)]> (motors r)) r)
        end
    end.

(** robot.js 343-377 *)
Definition updateConfig (key : string) (value : jsval) (save : bool)
  : action :=
  if loosely_null value then skip
  else
    (if includes_dot key then
       let joint := nth 0 (split_dot key) "" in
       let param := nth 1 (split_dot key) "" in
       config_set_in joint param value ;;
       motor_set joint param value ;;
       when (String.eqb param "limitAdj") (atJoint joint UpdateZeroStep)
     else config_set key value) ;;
    when save writeConfig ;;
    emit "meta".

(** ** Construction (robot.js 23-101) *)

(** The joints [setup] creates: [this.motorMap.j0 = new Motor({id: 'j0',
    canId: 0x10, ...})]. The class has this one joint; [create_motors] below
    repeats the assignment for each entry of a list. *)
Definition source_joints : list (string * Z) := [("j0", 16%Z)].

Definition create_motors (joints : list (string * Z))
  : list (string * Motor) :=
  fold_left (fun mm kc => obj_set (fst kc) (construct cls (fst kc) (snd kc)) mm)
            joints [].

Definition blank (ident : string) : Robot :=
  {| id := ident; stopped := false; ready := false; home := false;
     homing := false; moving := false; config := None; motors := [];
     trace := [] |}.

(** robot.js 80-101; the three timers it starts are the tick operations
    below. *)
Definition start : action :=
  assign (set_ready true) ;; emit "ready".

(** robot.js 50-75, for a list of joints. *)
Definition setup (joints : list (string * Z)) (d : disk) : action :=
  readConfig d ;;
  assign (set_motors (create_motors joints)) ;;
  start.

(** [new Robot({id})] for a list of joints. The class creates the joints of
    [source_joints]; its earlier version took the list as an argument of the
    constructor. *)
Definition new_Robot_with (joints : list (string * Z)) (ident : string)
  (d : disk) : completion := setup joints d (blank ident).

Definition new_Robot (ident : string) (d : disk) : completion :=
  new_Robot_with source_joints ident d.

(** ** Events of the motors and the run of the robot *)

Inductive joint_event : Type :=
  | EvHoming
  | EvHome (ident : jsval)
  | EvDisabled
  | EvEnabled
  | EvReset.

(** The listeners of robot.js 65-71. *)
Definition listener (ev : joint_event) : action :=
  match ev with
  | EvHome ident => motorHomed ident
  | _ => robotState
  end.

(** The motor at position [i] has become [m'] and emits [ev]. *)
Definition jointEvent (i : nat) (m' : Motor) (ev : joint_event) : action :=
  fun r =>
    match motors r !! i with
    | None => Normal r
    | Some (k, _) => listener ev (set_motors (<[i := (k, m')]> (motors r)) r)
    end.

(** Modelled from the spec: the home-reached event of motor.js, which is
    not among the sources. The joint controller sets its homed flag (the
    [home] property that [motorHomed] reads) and emits [home(id)]. *)
Definition homeReached (i : nat) : action :=
  fun r =>
    match motors r !! i with
    | None => Normal r
    | Some (_, m) =>
        jointEvent i (setprop "home" (JBool true) m)
                   (EvHome (getprop m "id")) r
    end.

Inductive op : Type :=
  | TickSetPoints
  | TickState
  | TickEncoder
  | MotorSetPosition (key : string) (position velocity : jsval)
  | MotorHome (key : string)
  | MotorResetErrors (key : string)
  | MotorEnable (key : string)
  | MotorDisable (key : string)
  | MotorZero (key : string)
  | MotorCalibrate (key : string)
  | QueryMotorPosition (key : string)
  | QueryMotorParamter (key : string) (index subindex : jsval)
  | RobotHome
  | RobotStop
  | RobotCenter
  | RobotReset
  | RobotEnable
  | UpdateConfig (key : string) (value : jsval) (save : bool)
  | WriteConfig
  | JointEvent (i : nat) (m' : Motor) (ev : joint_event).

Definition exec (o : op) : action :=
  match o with
  | TickSetPoints => writeJointSetPoints
  | TickState => emit "state"
  | TickEncoder => emit "encoder"
  | MotorSetPosition k p v => motorSetPosition k p v
  | MotorHome k => motorHome k
  | MotorResetErrors k => motorResetErrors k
  | MotorEnable k => motorEnable k
  | MotorDisable k => motorDisable k
  | MotorZero k => motorZero k
  | MotorCalibrate k => motorCalibrate k
  | QueryMotorPosition k => queryMotorPosition k
  | QueryMotorParamter k i s => queryMotorParamter k i s
  | RobotHome => robotHome
  | RobotStop => robotStop
  | RobotCenter => robotCenter
  | RobotReset => robotReset
  | RobotEnable => robotEnable
  | UpdateConfig k v s => updateConfig k v s
  | WriteConfig => writeConfig
  | JointEvent i m' ev => jointEvent i m' ev
  end.

(** The robot after a list of operations, each run to its completion; an
    operation that throws leaves the robot as it was at the throw. *)
Definition run (os : list op) (r : Robot) : Robot :=
  fold_left (fun r o => state_of (exec o r)) os r.

(** The robot after home-reached events of the joints at positions [ks]. *)
Definition run_home (ks : list nat) (r : Robot) : Robot :=
  fold_left (fun r k => state_of (homeReached k r)) ks r.

(** ** What a fan-out amounts to on the store

    The three functions below follow the loop of [forEach] over a list of
    motors; [forEach_fanout] proves that the loop computes them. *)

(** The keys of the motors the loop calls: every motor up to and including
    the first whose method raises. *)
Fixpoint reached (c : command) (ms : list (string * Motor)) : list string :=
  match ms with
  | [] => []
  | (k, m) :: rest =>
      match method cls c m with
      | Ret _ => k :: reached c rest
      | Raise _ _ => [k]
      end
  end.

(** The motors as the loop leaves them. *)
Fixpoint swept (c : command) (ms : list (string * Motor))
  : list (string * Motor) :=
  match ms with
  | [] => []
  | (k, m) :: rest =>
      match method cls c m with
      | Ret m' => (k, m') :: swept c rest
      | Raise _ m' => (k, m') :: rest
      end
  end.

(** The error that ends the loop, if any. *)
Fixpoint raised (c : command) (ms : list (string * Motor)) : option jserror :=
  match ms with
  | [] => None
  | (_, m) :: rest =>
      match method cls c m with
      | Ret _ => raised c rest
      | Raise e _ => Some e
      end
  end.

End RobotClass.

Arguments invoke cls i c r : simpl never.

(** ** Two motor classes to run the robot on *)

(** A motor that starts not homed, forgets it is homed when told to go
    home, and otherwise accepts every command. *)
Definition calm : MotorClass :=
  {| construct := fun k can =>
       {| props := {[ "id" := JStr k; "canId" := JNum can;
                      "home" := JBool false ]} |};
     method := fun c m =>
       match c with
       | GoHome => Ret (setprop "home" (JBool false) m)
       | _ => Ret m
       end |}.

(** As [calm], but the set-point write of the motor called [bad] raises. *)
Definition faulty (bad : string) : MotorClass :=
  {| construct := construct calm;
     method := fun c m =>
       match c with
       | WriteJointSetPoints =>
           match getprop m "id" with
           | JStr s => if String.eqb s bad
                       then Raise (Thrown (JStr "bus")) m else Ret m
           | _ => Ret m
           end
       | _ => method calm c m
       end |}.

Definition three_joints : list (string * Z) :=
  [("j0", 16%Z); ("j1", 32%Z); ("j2", 48%Z)].

(** The homed flag of the joint at position [j], as [motorHomed] reads it. *)
Definition homed_at (r : Robot) (j : nat) : bool :=
  match motors r !! j with
  | Some (_, m) => truthy (getprop m "home")
  | None => true
  end.

(** An observation [f] of the robot that an operation never changes. *)
Definition stable {A : Type} (f : Robot -> A) (a : action) : Prop :=
  forall r, f (state_of (a r)) = f r.

(** A robot fresh from [new Robot], on calm motors. *)
Definition igus : Robot := state_of (new_Robot calm "igus" Absent).

Definition igus3 : Robot :=
  state_of (new_Robot_with calm three_joints "igus" Absent).

Definition two_joints : list (string * Z) := [("j0", 16%Z); ("j1", 32%Z)].

(** Two joints, the first of which fails to write its set point. *)
Definition shaky : Robot :=
  state_of (new_Robot_with (faulty "j0") two_joints "igus" Absent).

(** Three joints, the second of which fails to write its set point. *)
Definition shaky3 : Robot :=
  state_of (new_Robot_with (faulty "j1") three_joints "igus" Absent).

(** A robot whose config file holds a section for a joint it does not
    have. *)
Definition haunted : Robot :=
  state_of (new_Robot calm "igus" (Holds {[ "ghost" := CObj ∅ ]})).

(** A robot whose config file holds a section for its joint. *)
Definition tuned : Robot :=
  state_of (new_Robot calm "igus"
              (Holds {[ "j0" := CObj {[ "limitAdj" := JNum 0 ]} ]})).

(** The robot with another config, store and trace. *)
Definition with_config (c : gmap string centry) (ms : list (string * Motor))
  (tr : list effect) (r : Robot) : Robot :=
  mkRobot (id r) (stopped r) (ready r) (home r) (homing r) (moving r)
          (Some c) ms tr.

(** As [calm], but the motor called [bad] raises when told to disable and
    when told to recalculate its zero step. *)
Definition jammed (bad : string) : MotorClass :=
  {| construct := construct calm;
     method := fun c m =>
       match c, getprop m "id" with
       | Disable, JStr s
       | UpdateZeroStep, JStr s =>
           if String.eqb s bad then Raise (Thrown (JStr "jam")) m
           else method calm c m
       | _, _ => method calm c m
       end |}.

(** Three joints, the second of which is jammed. *)
Definition jammed3 : Robot :=
  state_of (new_Robot_with (jammed "j1") three_joints "igus" Absent).

(** The robot of the class on a jammed joint, with a section for it in the
    config. *)
Definition stuck : Robot :=
  state_of (new_Robot (jammed "j0") "igus"
              (Holds {[ "j0" := CObj {[ "limitAdj" := JNum 0 ]} ]})).

(** ** The [state] getter (robot.js 261-273)

    [motor.state] is a getter of motor.js and the conversion of [motor.id]
    to a property key belongs to the language: both are parameters. *)

Section StateGetter.

Variable Snapshot : Type.
Variable motor_state : Motor -> Snapshot.
Variable to_key : jsval -> string.

Record State : Type := mkState {
  state_id : string;
  state_motors : gmap string Snapshot
}.

(** [motors[motor.id] = motor.state], motor after motor. *)
Definition collect_states (ms : list (string * Motor))
  (acc : gmap string Snapshot) : gmap string Snapshot :=
  fold_left
    (fun acc km =>
       <[to_key (getprop (snd km) "id") := motor_state (snd km)]> acc)
    ms acc.

Definition state (r : Robot) : State :=
  {| state_id := id r; state_motors := collect_states (motors r) ∅ |}.

End StateGetter.

(** Each motor carries, as its [id], the key it is stored under. *)
Definition ids_are_keys (r : Robot) : Prop :=
  Forall (fun km => getprop (snd km) "id" = JStr (fst km)) (motors r).

(** ** Observations for the invariants of the run *)

(** A relation between the robot before and after, which an operation keeps
    however it completes. *)
Definition keeps (R : Robot -> Robot -> Prop) (a : action) : Prop :=
  forall r, R r (state_of (a r)).

(** What no operation touches: the id, the keys of the joints and their
    order, an undefined config, and the effects already in the trace. *)
Definition same_frame (r r' : Robot) : Prop :=
  id r' = id r
  /\ map fst (motors r') = map fst (motors r)
  /\ (config r = None -> config r' = None)
  /\ exists added, trace r' = trace r ++ added.

(** The set-point writes recorded in the trace. *)
Definition is_write (e : effect) : bool :=
  match e with
  | Call _ WriteJointSetPoints => true
  | _ => false
  end.

Definition set_point_writes (r : Robot) : list effect :=
  List.filter is_write (trace r).

(** [robotReset] and [robotEnable], the two operations that assign
    [stopped = false]. *)
Definition rearms (o : op) : bool :=
  match o with
  | RobotReset | RobotEnable => true
  | _ => false
  end.

Definition is_robotHome (o : op) : bool :=
  match o with
  | RobotHome => true
  | _ => false
  end.

(** The completion of one method call [c] on the motor [m] stored under
    [key] between [pre] and [post]: the call is recorded, the motor is as the
    method left it, nothing else changes. *)
Definition called_on (cls : MotorClass) (c : command)
  (pre : list (string * Motor)) (key : string) (m : Motor)
  (post : list (string * Motor)) (r : Robot) : completion :=
  match method cls c m with
  | Ret m' =>
      Normal (with_store (pre ++ (key, m') :: post) (trace r ++ [Call key c]) r)
  | Raise e m' =>
      Throw e (with_store (pre ++ (key, m') :: post) (trace r ++ [Call key c]) r)
  end.

(** The calls a fan-out of [c] records on the motors [ms]. *)
Definition calls (cls : MotorClass) (c : command)
  (ms : list (string * Motor)) : list effect :=
  map (fun k => Call k c) (reached cls c ms).

(** The robot after a whole-robot command that assigned [f] and fanned [c]
    out; meta is emitted only when the fan-out came to its end. *)
Definition commanded (cls : MotorClass) (f : Robot -> Robot) (c : command)
  (emits : bool) (r : Robot) : completion :=
  finish (raised cls c (motors r))
    (with_store (swept cls c (motors r))
       (trace r ++ calls cls c (motors r)
          ++ (if emits && bool_decide (raised cls c (motors r) = None)
              then [Emit "meta"] else []))
       (f r)).

(** * Basic facts *)

Example split_dot_joint_param :
  split_dot "j0.limitAdj" = ["j0"; "limitAdj"].
Proof. reflexivity. Qed.

Example split_dot_three : split_dot "a.b.c" = ["a"; "b"; "c"].
Proof. reflexivity. Qed.

Example new_Robot_flags :
  flags (state_of (new_Robot calm "igus" Absent))
  = (false, true, false, false, false).
Proof. reflexivity. Qed.

Example new_Robot_keys :
  map fst (motors (state_of (new_Robot_with calm three_joints "igus" Absent)))
  = ["j0"; "j1"; "j2"].
Proof. reflexivity. Qed.

Example three_joints_home_order :
  let r1 := state_of (robotHome calm
                (state_of (new_Robot_with calm three_joints "igus" Absent))) in
  map (fun ks => (home (run_home ks r1), homing (run_home ks r1)))
      [[]; [1]; [1; 0]; [1; 0; 2]]
  = [(false, true); (false, true); (false, true); (true, false)].
Proof. vm_compute. reflexivity. Qed.

(** ** Sequencing and stability *)

Lemma stable_skip {A : Type} (f : Robot -> A) : stable f skip.
Proof. intros r. reflexivity. Qed.

Lemma stable_andThen {A : Type} (f : Robot -> A) (a b : action) :
  stable f a -> stable f b -> stable f (a ;; b).
Proof.
  intros Ha Hb r. unfold andThen.
  specialize (Ha r). destruct (a r) as [r'|e r']; simpl in *.
  - rewrite Hb. exact Ha.
  - exact Ha.
Qed.

Lemma stable_when {A : Type} (f : Robot -> A) (b : bool) (a : action) :
  stable f a -> stable f (when b a).
Proof. intros Ha. destruct b; [exact Ha | apply stable_skip]. Qed.

(** ** The store *)

Lemma motorMap_None (key : string) (ms : list (string * Motor)) :
  motorMap key ms = None <-> key ∉ map fst ms.
Proof.
  induction ms as [|[k m] rest IH]; simpl.
  - split; [intros _ H; inversion H | reflexivity].
  - destruct (String.eqb_spec k key) as [->|Hne].
    + split; [discriminate | intros H; exfalso; apply H; left].
    + destruct (motorMap key rest) as [i|]; simpl.
      * split; [discriminate |].
        intros H. exfalso. apply H. right. apply dec_stable.
        intros Hn. apply IH in Hn. discriminate.
      * split; [| reflexivity]. intros _ H.
        apply elem_of_cons in H as [H|H]; [congruence |].
        destruct IH as [IH _]. exact (IH eq_refl H).
Qed.

Lemma motorMap_Some (key : string) (ms : list (string * Motor)) (i : nat) :
  motorMap key ms = Some i -> exists m, ms !! i = Some (key, m).
Proof.
  revert i. induction ms as [|[k m] rest IH]; simpl; intros i H.
  - discriminate.
  - destruct (String.eqb_spec k key) as [->|Hne].
    + injection H as <-. exists m. reflexivity.
    + destruct (motorMap key rest) as [j|]; simpl in H; [|discriminate].
      injection H as <-. exact (IH j eq_refl).
Qed.

Lemma insert_middle {A : Type} (pre post : list A) (x y : A) :
  <[length pre := y]> (pre ++ x :: post) = pre ++ y :: post.
Proof.
  rewrite <- (Nat.add_0_r (length pre)). rewrite insert_app_r. reflexivity.
Qed.

(** ** Fan-out *)

Section FanOut.

Variable cls : MotorClass.

(** One call, on the motor between [pre] and [post]. *)
Lemma invoke_middle (c : command) (r : Robot)
  (pre post : list (string * Motor)) (k : string) (m : Motor) :
  motors r = pre ++ (k, m) :: post ->
  invoke cls (length pre) c r
  = match method cls c m with
    | Ret m' =>
        Normal (with_store (pre ++ (k, m') :: post) (trace r ++ [Call k c]) r)
    | Raise e m' =>
        Throw e (with_store (pre ++ (k, m') :: post) (trace r ++ [Call k c]) r)
    end.
Proof.
  intros Hms. unfold invoke. rewrite Hms.
  rewrite list_lookup_middle by reflexivity.
  unfold with_store, set_motors, log. cbn [motors trace id stopped ready home
    homing moving config].
  destruct (method cls c m); rewrite Hms, insert_middle; reflexivity.
Qed.

(** The loop, started at the end of [pre], over the motors [todo]. *)
Lemma forEach_from_fanout (c : command) (todo pre : list (string * Motor))
  (r : Robot) :
  motors r = pre ++ todo ->
  forEach_from cls (length pre) (length todo) c r
  = finish (raised cls c todo)
      (with_store (pre ++ swept cls c todo)
                  (trace r ++ map (fun k => Call k c) (reached cls c todo)) r).
Proof.
  revert pre r. induction todo as [|[k m] rest IH]; intros pre r Hms.
  - simpl. rewrite <- Hms, app_nil_r. destruct r; reflexivity.
  - simpl. unfold andThen. rewrite (invoke_middle c r pre rest k m Hms).
    destruct (method cls c m) as [m'|e m']; simpl; [|reflexivity].
    replace (S (length pre)) with (length (pre ++ [(k, m')]))
      by (rewrite length_app; simpl; lia).
    rewrite IH by (simpl; rewrite <- app_assoc; reflexivity).
    simpl. rewrite <- !app_assoc. reflexivity.
Qed.

Lemma forEach_fanout (c : command) (r : Robot) :
  forEach cls c r
  = finish (raised cls c (motors r))
      (with_store (swept cls c (motors r))
                  (trace r
                   ++ map (fun k => Call k c) (reached cls c (motors r)))
                  r).
Proof.
  unfold forEach. exact (forEach_from_fanout c (motors r) [] r eq_refl).
Qed.

Lemma reached_no_raise (c : command) (ms : list (string * Motor)) :
  raised cls c ms = None -> reached cls c ms = map fst ms.
Proof.
  induction ms as [|[k m] rest IH]; simpl; [reflexivity|].
  destruct (method cls c m); [|discriminate].
  intros H. rewrite IH by exact H. reflexivity.
Qed.

Lemma reached_prefix (c : command) (ms : list (string * Motor)) :
  reached cls c ms = take (length (reached cls c ms)) (map fst ms).
Proof.
  induction ms as [|[k m] rest IH]; simpl; [reflexivity|].
  destruct (method cls c m); simpl; [|reflexivity].
  rewrite <- IH. reflexivity.
Qed.

Lemma reached_raise (c : command) (pre post : list (string * Motor))
  (k : string) (m m' : Motor) (e : jserror) :
  raised cls c pre = None ->
  method cls c m = Raise e m' ->
  reached cls c (pre ++ (k, m) :: post) = map fst pre ++ [k]
  /\ swept cls c (pre ++ (k, m) :: post) = swept cls c pre ++ (k, m') :: post
  /\ raised cls c (pre ++ (k, m) :: post) = Some e.
Proof.
  intros Hpre Hm. induction pre as [|[k0 m0] rest IH]; simpl in *.
  - rewrite Hm. auto.
  - destruct (method cls c m0); [|discriminate].
    destruct (IH Hpre) as (-> & -> & ->). auto.
Qed.

Lemma swept_keys (c : command) (ms : list (string * Motor)) :
  map fst (swept cls c ms) = map fst ms.
Proof.
  induction ms as [|[k m] rest IH]; simpl; [reflexivity|].
  destruct (method cls c m); simpl; [rewrite IH|]; reflexivity.
Qed.

Lemma state_of_finish (e : option jserror) (r : Robot) :
  state_of (finish e r) = r.
Proof. destruct e; reflexivity. Qed.

Lemma forEach_state (c : command) (r : Robot) :
  state_of (forEach cls c r)
  = with_store (swept cls c (motors r))
               (trace r ++ map (fun k => Call k c) (reached cls c (motors r)))
               r.
Proof. rewrite forEach_fanout. apply state_of_finish. Qed.

End FanOut.

(** * The cyclic set-point dispatch *)

Lemma raised_all_return (cls : MotorClass) (c : command)
  (ms : list (string * Motor)) :
  Forall (fun km => exists m', method cls c (snd km) = Ret m') ms ->
  raised cls c ms = None.
Proof.
  induction 1 as [|[k m] rest [m' Hm] _ IH]; simpl in *; [reflexivity|].
  rewrite Hm. exact IH.
Qed.

Lemma finish_Normal (e : option jserror) (r r' : Robot) :
  finish e r = Normal r' -> e = None /\ r' = r.
Proof.
  destruct e; simpl; intros H; [discriminate|]. injection H as <-. auto.
Qed.

Lemma raised_None_all (cls : MotorClass) (c : command)
  (ms : list (string * Motor)) :
  raised cls c ms = None -> length (reached cls c ms) = length ms.
Proof.
  intros H. rewrite (reached_no_raise cls c ms H). apply length_map.
Qed.

Lemma raised_None_returns (cls : MotorClass) (c : command)
  (ms : list (string * Motor)) :
  raised cls c ms = None ->
  Forall (fun km => exists m', method cls c (snd km) = Ret m') ms.
Proof.
  induction ms as [|[k m] rest IH]; simpl; intros H; [constructor|].
  destruct (method cls c m) as [m'|e m'] eqn:Hm; [|discriminate].
  constructor; [exists m'; exact Hm | exact (IH H)].
Qed.

(** Every joint the loop calls before the last one it calls returned. *)
Lemma reached_returns (cls : MotorClass) (c : command)
  (ms : list (string * Motor)) (i : nat) (k : string) (m : Motor) :
  ms !! i = Some (k, m) ->
  i + 1 < length (reached cls c ms) ->
  exists m', method cls c m = Ret m'.
Proof.
  revert i. induction ms as [|[k0 m0] rest IH]; intros i Hi Hlt.
  - destruct i; discriminate Hi.
  - simpl in Hlt. destruct (method cls c m0) as [m0'|e m0'] eqn:Hm0.
    + destruct i as [|i]; simpl in Hi, Hlt.
      * injection Hi as <- <-. eauto.
      * apply (IH i Hi). lia.
    + simpl in Hlt. lia.
Qed.

(** The joints the loop does not call are as they were. *)
Lemma swept_untouched (cls : MotorClass) (c : command)
  (ms : list (string * Motor)) (i : nat) :
  length (reached cls c ms) <= i -> swept cls c ms !! i = ms !! i.
Proof.
  revert i. induction ms as [|[k0 m0] rest IH]; intros i Hle; [reflexivity|].
  simpl in *. destruct (method cls c m0) as [m0'|e m0']; simpl in Hle;
    (destruct i as [|i]; [lia|]); simpl; [apply IH; lia | reflexivity].
Qed.

(** The error that ends the loop is the one the last joint called raised. *)
Lemma raised_last (cls : MotorClass) (c : command)
  (ms : list (string * Motor)) (e : jserror) :
  raised cls c ms = Some e ->
  0 < length (reached cls c ms)
  /\ exists k m m',
       ms !! (length (reached cls c ms) - 1) = Some (k, m)
       /\ method cls c m = Raise e m'.
Proof.
  induction ms as [|[k0 m0] rest IH]; simpl; intros H; [discriminate|].
  destruct (method cls c m0) as [m0'|e0 m0'] eqn:Hm0.
  - destruct (IH H) as (Hpos & k & m & m' & Hlook & Hm).
    split; [simpl; lia|]. exists k, m, m'. split; [|exact Hm].
    simpl. rewrite Nat.sub_0_r.
    destruct (length (reached cls c rest)) as [|n]; [lia|].
    simpl in *. rewrite Nat.sub_0_r in Hlook. exact Hlook.
  - injection H as <-. split; [simpl; lia|].
    exists k0, m0, m0'. split; [reflexivity | exact Hm0].
Qed.

Lemma finish_Throw (o : option jserror) (r r' : Robot) (e : jserror) :
  finish o r = Throw e r' -> o = Some e.
Proof. destruct o; simpl; intros H; [|discriminate]. congruence. Qed.

Example shaky_dispatch :
  writeJointSetPoints (faulty "j0") shaky
  = Throw (Thrown (JStr "bus"))
          (with_store (motors shaky)
                      (trace shaky ++ [Call "j0" WriteJointSetPoints]) shaky).
Proof. vm_compute. reflexivity. Qed.

(** C3, as the claim states it, fails where a joint's write raises: with two
    joints whose first write raises, the robot is not stopped and the second
    joint is never written. *)
Lemma writeJointSetPoints_not_every_joint :
  ~ (stopped shaky = false ->
     trace (state_of (writeJointSetPoints (faulty "j0") shaky))
     = trace shaky
       ++ map (fun k => Call k WriteJointSetPoints) (map fst (motors shaky))).
Proof.
  intros H. specialize (H eq_refl). rewrite shaky_dispatch in H.
  vm_compute in H. discriminate H.
Qed.

(** C3 (amended). While [stopped] is true [writeJointSetPoints] returns with
    the robot exactly as it was: no joint is called, no flag and no joint
    changes. While [stopped] is false it calls the set-point write of the
    first [n] joints in registration order, each once, where the joint at
    position [n - 1] is the first whose write raises, or [n] is the number of
    joints when none raises: every joint called before the last one
    returned, a throw is the error the last joint called raised, a normal
    return means that every write returned, and the joints from position [n]
    on are not called and are as they were. The flags and the config are
    untouched. *)
Theorem writeJointSetPoints_dispatch (cls : MotorClass) (r : Robot) :
  (stopped r = true -> writeJointSetPoints cls r = Normal r)
  /\ (stopped r = false ->
      exists n : nat,
        n <= length (motors r)
        /\ trace (state_of (writeJointSetPoints cls r))
           = trace r ++ map (fun k => Call k WriteJointSetPoints)
                            (take n (map fst (motors r)))
        /\ flags (state_of (writeJointSetPoints cls r)) = flags r
        /\ config (state_of (writeJointSetPoints cls r)) = config r
        /\ map fst (motors (state_of (writeJointSetPoints cls r)))
           = map fst (motors r)
        /\ (forall r', writeJointSetPoints cls r = Normal r' ->
                       n = length (motors r))
        /\ (Forall (fun km => exists m',
                      method cls WriteJointSetPoints (snd km) = Ret m')
                   (motors r) ->
            n = length (motors r)
            /\ exists r', writeJointSetPoints cls r = Normal r')
        /\ (forall i k m,
              motors r !! i = Some (k, m) ->
              i + 1 < n ->
              exists m', method cls WriteJointSetPoints m = Ret m')
        /\ (forall e r',
              writeJointSetPoints cls r = Throw e r' ->
              0 < n
              /\ exists k m m',
                   motors r !! (n - 1) = Some (k, m)
                   /\ method cls WriteJointSetPoints m = Raise e m')
        /\ (forall r',
              writeJointSetPoints cls r = Normal r' ->
              Forall (fun km => exists m',
                        method cls WriteJointSetPoints (snd km) = Ret m')
                     (motors r))
        /\ (forall i,
              n <= i ->
              motors (state_of (writeJointSetPoints cls r)) !! i
              = motors r !! i)).
Proof.
  unfold writeJointSetPoints. split; intros Hs; rewrite Hs; [reflexivity|].
  exists (length (reached cls WriteJointSetPoints (motors r))).
  rewrite forEach_state, forEach_fanout. simpl.
  split; [|split; [|split; [|split; [|split; [|split; [|split;
    [|split; [|split; [|split]]]]]]]]].
  - rewrite (reached_prefix cls WriteJointSetPoints (motors r)) at 1.
    rewrite length_take, length_map. lia.
  - rewrite <- reached_prefix. reflexivity.
  - reflexivity.
  - reflexivity.
  - apply swept_keys.
  - intros r' H. apply finish_Normal in H as [H _].
    apply raised_None_all. exact H.
  - intros Hall. split.
    + apply raised_None_all, raised_all_return. exact Hall.
    + rewrite raised_all_return by exact Hall. simpl. eauto.
  - intros i k m Hm Hlt. exact (reached_returns cls _ _ i k m Hm Hlt).
  - intros e r' H. apply finish_Throw in H. exact (raised_last cls _ _ e H).
  - intros r' H. apply finish_Normal in H as [H _].
    exact (raised_None_returns cls _ _ H).
  - intros i Hle. apply swept_untouched. exact Hle.
Qed.

Lemma writeJointSetPoints_dispatch_witness :
  writeJointSetPoints calm (set_stopped true igus3)
  = Normal (set_stopped true igus3)
  /\ exists n : nat,
       n = 3
       /\ trace (state_of (writeJointSetPoints calm igus3))
          = trace igus3 ++ [Call "j0" WriteJointSetPoints;
                            Call "j1" WriteJointSetPoints;
                            Call "j2" WriteJointSetPoints].
Proof.
  destruct (writeJointSetPoints_dispatch calm (set_stopped true igus3))
    as [Hstop _].
  destruct (writeJointSetPoints_dispatch calm igus3) as [_ Hrun].
  split; [exact (Hstop eq_refl)|].
  destruct (Hrun eq_refl) as (n & _ & Htr & _ & _ & _ & _ & Hall & _).
  assert (Hn : n = 3).
  { apply Hall. repeat constructor; eexists; reflexivity. }
  exists n. split; [exact Hn|]. rewrite Htr, Hn. reflexivity.
Defined.

(** C4, as the claim states it, fails: the first joint's write raises, the
    second joint is never attempted and the error reaches the caller. *)
Lemma writeJointSetPoints_failure_not_isolated :
  ~ (forall i k m e m',
       motors shaky !! i = Some (k, m) ->
       method (faulty "j0") WriteJointSetPoints m = Raise e m' ->
       (forall k', k' ∈ map fst (motors shaky) ->
          Call k' WriteJointSetPoints
            ∈ trace (state_of (writeJointSetPoints (faulty "j0") shaky)))
       /\ exists r', writeJointSetPoints (faulty "j0") shaky = Normal r').
Proof.
  intros H.
  destruct (H 0 "j0" (construct calm "j0" 16%Z) (Thrown (JStr "bus"))
              (construct calm "j0" 16%Z) eq_refl eq_refl) as [_ [r' Hr']].
  rewrite shaky_dispatch in Hr'. discriminate Hr'.
Qed.

(** C4 (amended). There is no isolation in the fan-out: when the write of a
    joint raises, and no write before it did, the joints registered before it
    have been written, the joints after it are not attempted and stay as they
    were, and the error is thrown to the caller of [writeJointSetPoints]. *)
Theorem writeJointSetPoints_failure_aborts (cls : MotorClass) (r : Robot)
  (pre post : list (string * Motor)) (k : string) (m m' : Motor)
  (e : jserror) :
  stopped r = false ->
  motors r = pre ++ (k, m) :: post ->
  Forall (fun km => exists m0,
            method cls WriteJointSetPoints (snd km) = Ret m0) pre ->
  method cls WriteJointSetPoints m = Raise e m' ->
  writeJointSetPoints cls r
  = Throw e (with_store
               (swept cls WriteJointSetPoints pre ++ (k, m') :: post)
               (trace r ++ map (fun j => Call j WriteJointSetPoints)
                               (map fst pre ++ [k]))
               r).
Proof.
  intros Hs Hms Hpre Hm. unfold writeJointSetPoints. rewrite Hs.
  rewrite forEach_fanout, Hms.
  destruct (reached_raise cls WriteJointSetPoints pre post k m m' e
              (raised_all_return _ _ _ Hpre) Hm) as (-> & -> & ->).
  reflexivity.
Qed.

Lemma writeJointSetPoints_failure_aborts_witness :
  writeJointSetPoints (faulty "j1") shaky3
  = Throw (Thrown (JStr "bus"))
          (with_store (motors shaky3)
                      (trace shaky3 ++ [Call "j0" WriteJointSetPoints;
                                        Call "j1" WriteJointSetPoints])
                      shaky3).
Proof.
  rewrite (writeJointSetPoints_failure_aborts (faulty "j1") shaky3
             [("j0", construct calm "j0" 16%Z)]
             [("j2", construct calm "j2" 48%Z)]
             "j1" (construct calm "j1" 32%Z) (construct calm "j1" 32%Z)
             (Thrown (JStr "bus"))).
  - reflexivity.
  - reflexivity.
  - reflexivity.
  - repeat constructor. eexists. reflexivity.
  - reflexivity.
Defined.

(** * Commands addressed to one joint *)

Lemma atJoint_unknown (cls : MotorClass) (key : string) (c : command)
  (r : Robot) :
  key ∉ map fst (motors r) -> atJoint cls key c r = Throw TypeError r.
Proof.
  intros H. unfold atJoint.
  destruct (motorMap_None key (motors r)) as [_ Hn]. rewrite (Hn H).
  reflexivity.
Qed.

(** C8. A per-joint command addressed to an id that is not a configured
    joint throws to the caller (the [TypeError] of a method call on
    [undefined], which is how the class reports the unknown joint) and
    leaves the whole robot, every joint and every flag, as it was. This holds
    of [motorSetPosition] and of the eight other per-joint commands. *)
Theorem motor_command_unknown_joint (cls : MotorClass) (r : Robot)
  (g : string) :
  g ∉ map fst (motors r) ->
  (forall position velocity,
     motorSetPosition cls g position velocity r = Throw TypeError r)
  /\ motorHome cls g r = Throw TypeError r
  /\ motorResetErrors cls g r = Throw TypeError r
  /\ motorEnable cls g r = Throw TypeError r
  /\ motorDisable cls g r = Throw TypeError r
  /\ motorZero cls g r = Throw TypeError r
  /\ motorCalibrate cls g r = Throw TypeError r
  /\ queryMotorPosition cls g r = Throw TypeError r
  /\ (forall index subindex,
        queryMotorParamter cls g index subindex r = Throw TypeError r).
Proof.
  intros H. repeat split; intros; apply atJoint_unknown; exact H.
Qed.

Lemma motor_command_unknown_joint_witness :
  motorSetPosition calm "ghost" (JNum 10) JUndefined igus3
  = Throw TypeError igus3.
Proof.
  refine (proj1 (motor_command_unknown_joint calm igus3 "ghost" _) _ _).
  vm_compute. intros H.
  repeat (apply elem_of_cons in H as [H|H]; [discriminate H|]).
  inversion H.
Defined.

(** * Construction *)

(** C9. Whatever the joints, the id and the state of the config file, the
    robot the constructor leaves has [home], [homing] and [stopped] false
    (and construction, once the channel exists, always completes). *)
Theorem new_Robot_flags_false (cls : MotorClass) (joints : list (string * Z))
  (ident : string) (d : disk) :
  exists r,
    new_Robot_with cls joints ident d = Normal r
    /\ home r = false /\ homing r = false /\ stopped r = false.
Proof.
  unfold new_Robot_with, setup. destruct d; eexists; (split; [reflexivity|]);
    repeat split.
Qed.

(** * Configuration updates *)

(** C6, as the claim states it, fails: a null value is not reported to the
    caller as an error, the call returns normally. *)
Lemma updateConfig_null_no_error :
  ~ (exists e r', updateConfig calm "j0.limitAdj" JNull true igus = Throw e r').
Proof. intros (e & r' & H). discriminate H. Qed.

(** C6 (amended). For every key and every persist argument,
    [updateConfig(key, null, persist)] returns normally with the robot as it
    was: config, joints and flags unchanged, nothing written to the store, no
    meta notification. The rejection is logged, not reported to the caller. *)
Theorem updateConfig_null_ignored (cls : MotorClass) (key : string)
  (save : bool) (r : Robot) :
  updateConfig cls key JNull save r = Normal r
  /\ updateConfig cls key JUndefined save r = Normal r.
Proof. split; reflexivity. Qed.

Lemma split_dot_app (j p : string) :
  includes_dot j = false ->
  split_dot (j ++ String "." p)%string = j :: split_dot p
  /\ includes_dot (j ++ String "." p)%string = true.
Proof.
  induction j as [|a j IH]; simpl; intros H.
  - split; reflexivity.
  - apply orb_false_iff in H as [Ha Hj]. rewrite Ha.
    destruct (IH Hj) as [-> ->]. split; reflexivity.
Qed.

Lemma motorMap_insert (key k : string) (m m' : Motor)
  (ms : list (string * Motor)) (i : nat) :
  ms !! i = Some (k, m) ->
  motorMap key (<[i := (k, m')]> ms) = motorMap key ms.
Proof.
  revert i. induction ms as [|[k0 m0] rest IH]; intros [|i] H; simpl in *;
    try discriminate.
  - injection H as -> ->. reflexivity.
  - rewrite (IH i H). reflexivity.
Qed.

Section Config.

Variable cls : MotorClass.

(** A dotted key whose joint segment is not a key of [motorMap]: the config
    entry is written if the config has an object under that segment, and the
    write to the motor then throws. *)
Lemma updateConfig_unknown (key : string) (value : jsval) (save : bool)
  (r : Robot) :
  loosely_null value = false ->
  includes_dot key = true ->
  nth 0 (split_dot key) "" ∉ map fst (motors r) ->
  updateConfig cls key value save r
  = Throw TypeError
      (match config r with
       | Some c =>
           match c !! nth 0 (split_dot key) "" with
           | Some (CObj o) =>
               set_config
                 (Some (<[nth 0 (split_dot key) "" :=
                          CObj (<[nth 1 (split_dot key) "" := value]> o)]> c))
                 r
           | _ => r
           end
       | None => r
       end).
Proof.
  intros Hv Hdot Hg. unfold updateConfig. rewrite Hv, Hdot.
  cbv zeta. unfold andThen, config_set_in, motor_set.
  destruct (config r) as [c|]; [|reflexivity].
  destruct (c !! nth 0 (split_dot key) "") as [[v|o]|]; try reflexivity.
  cbn [motors set_config].
  destruct (motorMap_None (nth 0 (split_dot key) "") (motors r)) as [_ Hn].
  rewrite (Hn Hg). reflexivity.
Qed.

End Config.

Example haunted_update :
  config (state_of (updateConfig calm "ghost.param" (JNum 1) false haunted))
  = Some {[ "ghost" := CObj {[ "param" := JNum 1 ]} ]}.
Proof. vm_compute. reflexivity. Qed.

(** C7, as the claim states it, fails: where the config holds a section for
    the unknown joint, the section is written before the error is thrown. *)
Lemma updateConfig_unknown_joint_mutates :
  ~ (exists e,
       updateConfig calm "ghost.param" (JNum 1) false haunted
       = Throw e haunted).
Proof.
  intros [e H]. apply (f_equal (fun c => config (state_of c))) in H.
  rewrite haunted_update in H. vm_compute in H. discriminate H.
Qed.

(** C7 (amended). For a dotted key whose joint segment is neither an
    existing joint id nor a name inherited from [Object.prototype], and a
    non-null value, [updateConfig] throws to the caller (the [TypeError] of
    the write to the missing motor), changes no joint and no flag, writes
    nothing to the store and emits no meta; and it mutates nothing at all
    unless the config holds an object under that segment. *)
Theorem updateConfig_unknown_joint (cls : MotorClass) (key : string)
  (value : jsval) (save : bool) (r : Robot) :
  loosely_null value = false ->
  includes_dot key = true ->
  inherited_name (nth 0 (split_dot key) "") = false ->
  nth 0 (split_dot key) "" ∉ map fst (motors r) ->
  exists r',
    updateConfig cls key value save r = Throw TypeError r'
    /\ motors r' = motors r
    /\ flags r' = flags r
    /\ trace r' = trace r
    /\ ((forall c o, config r = Some c ->
                     c !! nth 0 (split_dot key) "" <> Some (CObj o)) ->
        r' = r).
Proof.
  intros Hv Hdot _ Hg. eexists. split.
  - apply updateConfig_unknown; assumption.
  - destruct (config r) as [c|] eqn:Hc; [|auto].
    destruct (c !! nth 0 (split_dot key) "") as [[v|o]|] eqn:Ho; auto.
    repeat split. intros H. exfalso. exact (H c o eq_refl Ho).
Qed.

Lemma updateConfig_unknown_joint_witness :
  updateConfig calm "ghost.param" (JNum 1) false igus = Throw TypeError igus.
Proof.
  destruct (updateConfig_unknown_joint calm "ghost.param" (JNum 1) false igus)
    as (r' & Hr & _ & _ & _ & Hsame).
  - reflexivity.
  - reflexivity.
  - reflexivity.
  - vm_compute. intros H.
    repeat (apply elem_of_cons in H as [H|H]; [discriminate H|]).
    inversion H.
  - rewrite Hr. f_equal. apply Hsame. intros c o Hc.
    injection Hc as <-. vm_compute. discriminate.
Defined.





(** * Homing *)

Lemma every_home_lookup (r : Robot) :
  every_home r = true <-> forall j, homed_at r j = true.
Proof.
  unfold every_home, homed_at. generalize (motors r) as ms. clear r.
  induction ms as [|[k m] rest IH]; simpl.
  - split; [intros _ j; reflexivity | reflexivity].
  - rewrite andb_true_iff, IH. split.
    + intros [Hm Hrest] [|j]; simpl; [exact Hm | apply Hrest].
    + intros H. split; [exact (H 0) | intros j; exact (H (S j))].
Qed.

Lemma state_of_motorHomed (ident : jsval) (r : Robot) :
  let r' := state_of (motorHomed ident r) in
  motors r' = motors r
  /\ homing r' = homing r && negb (every_home r)
  /\ home r' = home r || (homing r && every_home r)
  /\ stopped r' = stopped r /\ ready r' = ready r /\ moving r' = moving r
  /\ config r' = config r.
Proof.
  unfold motorHomed, andThen, emit, assign.
  destruct (homing r) eqn:Hh, (every_home r) eqn:He; simpl;
    rewrite ?Hh, ?orb_false_r, ?orb_true_r; repeat split; reflexivity.
Qed.

Lemma getprop_setprop (k : string) (v : jsval) (m : Motor) :
  getprop (setprop k v m) k = v.
Proof. unfold getprop, setprop. cbn. rewrite lookup_insert_eq. reflexivity. Qed.

Lemma homeReached_unfold (k : nat) (r : Robot) (key : string) (m : Motor) :
  motors r !! k = Some (key, m) ->
  homeReached k r
  = motorHomed (getprop m "id")
      (set_motors (<[k := (key, setprop "home" (JBool true) m)]> (motors r)) r).
Proof.
  intros Hm. unfold homeReached, jointEvent. rewrite Hm. reflexivity.
Qed.

(** One home-reached event, from the joint at the valid position [k]. *)
Lemma homeReached_step (k : nat) (r : Robot) :
  k < length (motors r) ->
  let r' := state_of (homeReached k r) in
  length (motors r') = length (motors r)
  /\ (forall j, homed_at r' j = (if decide (j = k) then true else homed_at r j))
  /\ homing r' = homing r && negb (every_home r')
  /\ home r' = home r || (homing r && every_home r').
Proof.
  intros Hk.
  destruct (motors r !! k) as [[key m]|] eqn:Hm.
  2:{ apply lookup_ge_None in Hm. lia. }
  rewrite (homeReached_unfold k r key m Hm).
  set (r0 := set_motors
               (<[k := (key, setprop "home" (JBool true) m)]> (motors r)) r).
  destruct (state_of_motorHomed (getprop m "id") r0)
    as (Hms & Hhoming & Hhome & _).
  cbv zeta.
  assert (He : every_home (state_of (motorHomed (getprop m "id") r0))
               = every_home r0).
  { unfold every_home. rewrite Hms. reflexivity. }
  rewrite He. repeat split.
  - rewrite Hms. subst r0. cbn. apply length_insert.
  - intros j. unfold homed_at. rewrite Hms. subst r0. cbn [motors set_motors].
    destruct (decide (j = k)) as [->|Hne].
    + rewrite list_lookup_insert_eq by exact Hk.
      rewrite getprop_setprop. reflexivity.
    + rewrite list_lookup_insert_ne by congruence. reflexivity.
  - exact Hhoming.
  - exact Hhome.
Qed.

Lemma run_home_snoc (ks : list nat) (k : nat) (r : Robot) :
  run_home (ks ++ [k]) r = state_of (homeReached k (run_home ks r)).
Proof. unfold run_home. rewrite fold_left_app. reflexivity. Qed.

(** The robot after the home-reached events [ks], all from valid
    positions. *)
Lemma run_home_flags (ks : list nat) (r : Robot) :
  Forall (fun k => k < length (motors r)) ks ->
  let rn := run_home ks r in
  length (motors rn) = length (motors r)
  /\ (forall j, homed_at rn j = homed_at r j || bool_decide (j ∈ ks))
  /\ homing rn = homing r && negb (bool_decide (ks <> []) && every_home rn)
  /\ home rn = home r || (homing r && bool_decide (ks <> []) && every_home rn).
Proof.
  induction ks as [|k ks IH] using rev_ind; intros Hks.
  - cbn. repeat split.
    + intros j. rewrite orb_false_r. reflexivity.
    + rewrite andb_true_r. reflexivity.
    + rewrite andb_false_r, orb_false_r. reflexivity.
  - apply Forall_app in Hks as [Hks Hk]. inversion Hk as [|? ? Hk' _]; subst.
    destruct (IH Hks) as (Hlen & Hat & Hhoming & Hhome). clear IH.
    cbv zeta. rewrite run_home_snoc.
    set (rn := run_home ks r) in *.
    assert (Hkn : k < length (motors rn)) by lia.
    destruct (homeReached_step k rn Hkn) as (Hlen' & Hat' & Hhoming' & Hhome').
    set (rn' := state_of (homeReached k rn)) in *.
    assert (Hmono : every_home rn = true -> every_home rn' = true).
    { rewrite !every_home_lookup. intros H j. rewrite Hat'.
      destruct (decide (j = k)); [reflexivity | apply H]. }
    assert (Hne : bool_decide (ks ++ [k] <> []) = true).
    { apply bool_decide_eq_true. destruct ks; discriminate. }
    rewrite Hne. repeat split.
    + lia.
    + intros j. rewrite Hat', Hat.
      destruct (decide (j = k)) as [->|Hjk].
      * rewrite (bool_decide_eq_true_2 (k ∈ ks ++ [k])) by set_solver.
        apply eq_sym, orb_true_r.
      * f_equal. apply bool_decide_ext.
        rewrite elem_of_app, list_elem_of_singleton. tauto.
    + rewrite Hhoming', Hhoming.
      destruct (every_home rn') eqn:E'; simpl.
      * rewrite !andb_false_r. reflexivity.
      * destruct (every_home rn) eqn:E;
          [specialize (Hmono eq_refl); congruence|].
        rewrite !andb_false_r. simpl. rewrite !andb_true_r. reflexivity.
    + rewrite Hhome', Hhome, Hhoming.
      destruct (every_home rn') eqn:E'; simpl.
      * destruct (every_home rn) eqn:E; simpl;
          rewrite ?andb_true_r, ?andb_false_r, ?orb_false_r;
          destruct (home r), (homing r), (bool_decide (ks <> []));
          reflexivity.
      * destruct (every_home rn) eqn:E;
          [specialize (Hmono eq_refl); congruence|].
        rewrite !andb_false_r, !orb_false_r. reflexivity.
Qed.

Lemma state_of_robotHome (cls : MotorClass) (r : Robot) :
  let r1 := state_of (robotHome cls r) in
  homing r1 = true /\ home r1 = home r
  /\ length (motors r1) = length (motors r).
Proof.
  unfold robotHome, andThen, assign. cbv zeta.
  rewrite forEach_state. cbn. repeat split.
  rewrite <- (length_map fst), swept_keys, length_map. reflexivity.
Qed.

(** C1. [robotHome] sets [homing]. After any sequence of home-reached
    events that follows, the robot is home and no longer homing exactly when
    the sequence is not empty and every joint's homed flag is true, that is,
    when every joint has reported or was homed already: the event of the last
    joint not yet homed makes the change, and no earlier event does. ([home]
    on its own is true after the events exactly when that event has arrived
    or [home] was true when [robotHome] was called.) *)
Theorem robotHome_home_on_last_joint (cls : MotorClass) (r : Robot)
  (ks : list nat) :
  Forall (fun k => k < length (motors r)) ks ->
  let r1 := state_of (robotHome cls r) in
  let rn := run_home ks r1 in
  homing r1 = true
  /\ (home rn = true /\ homing rn = false
      <-> ks <> [] /\ every_home rn = true)
  /\ (homing rn = false <-> ks <> [] /\ every_home rn = true)
  /\ (home rn = true <-> home r = true \/ (ks <> [] /\ every_home rn = true))
  /\ (every_home rn = true
      <-> forall j, j < length (motors r) -> j ∈ ks \/ homed_at r1 j = true).
Proof.
  intros Hks. cbv zeta.
  destruct (state_of_robotHome cls r) as (Hhoming1 & Hhome1 & Hlen1).
  set (r1 := state_of (robotHome cls r)) in *.
  assert (Hks1 : Forall (fun k => k < length (motors r1)) ks).
  { rewrite Hlen1. exact Hks. }
  destruct (run_home_flags ks r1 Hks1) as (Hlen & Hat & Hhoming & Hhome).
  set (rn := run_home ks r1) in *.
  rewrite Hhoming1 in Hhoming, Hhome. rewrite Hhome1 in Hhome.
  simpl in Hhoming, Hhome.
  assert (Hfired : bool_decide (ks <> []) && every_home rn = true
                   <-> ks <> [] /\ every_home rn = true).
  { rewrite andb_true_iff, bool_decide_eq_true. reflexivity. }
  assert (Hhoming' : homing rn = false <-> ks <> [] /\ every_home rn = true).
  { rewrite <- Hfired, Hhoming. apply negb_false_iff. }
  assert (Hhome' : home rn = true
                   <-> home r = true \/ (ks <> [] /\ every_home rn = true)).
  { rewrite <- Hfired, Hhome. apply orb_true_iff. }
  split; [exact Hhoming1|]. split; [|split; [exact Hhoming'|split]].
  - rewrite Hhoming', Hhome'. tauto.
  - exact Hhome'.
  - rewrite every_home_lookup. split.
    + intros H j _. specialize (H j). rewrite Hat in H.
      apply orb_true_iff in H as [H|H]; [right; exact H|].
      left. apply bool_decide_eq_true in H. exact H.
    + intros H j. destruct (decide (j < length (motors r))) as [Hj|Hj].
      * rewrite Hat. apply orb_true_iff.
        destruct (H j Hj) as [Hin|Hh]; [right|left; exact Hh].
        apply bool_decide_eq_true. exact Hin.
      * unfold homed_at. rewrite (proj2 (lookup_ge_None _ _)); [reflexivity|].
        lia.
Qed.

Lemma robotHome_home_on_last_joint_witness :
  let r1 := state_of (robotHome calm igus3) in
  (home (run_home [1; 0; 2] r1) = true
   /\ homing (run_home [1; 0; 2] r1) = false)
  /\ ~ (home (run_home [1; 0] r1) = true
        /\ homing (run_home [1; 0] r1) = false).
Proof.
  cbv zeta. split.
  - apply (robotHome_home_on_last_joint calm igus3 [1; 0; 2]).
    + repeat constructor.
    + split; [discriminate | vm_compute; reflexivity].
  - intros H.
    apply (robotHome_home_on_last_joint calm igus3 [1; 0]) in H.
    + destruct H as [_ H]. vm_compute in H. discriminate H.
    + repeat constructor.
Defined.

(** [robotHome] leaves [home] as it finds it: on a robot that is home it
    ends with both flags true. *)
Lemma robotHome_keeps_home (cls : MotorClass) (r : Robot) :
  home r = true ->
  home (state_of (robotHome cls r)) = true
  /\ homing (state_of (robotHome cls r)) = true.
Proof.
  intros H. destruct (state_of_robotHome cls r) as (Hhoming & Hhome & _).
  rewrite Hhome. auto.
Qed.

(** C2. The robot of the class (one joint, [j0]) is constructed, homed
    ([robotHome], then the home-reached event of [j0]) and told to home
    again: [home] and [homing] are then both true. *)
Theorem rehoming_home_and_homing :
  let homed := setprop "home" (JBool true) (construct calm "j0" 16%Z) in
  let r1 :=
    run calm [RobotHome; JointEvent 0 homed (EvHome (JStr "j0"))] igus in
  let r2 := run calm [RobotHome] r1 in
  (home r1 = true /\ homing r1 = false)
  /\ (home r2 = true /\ homing r2 = true).
Proof. vm_compute. repeat split. Qed.

(** * The flags under every operation *)

Section Flags.

Variable cls : MotorClass.

Lemma stable_flags_invoke (i : nat) (c : command) :
  stable flags (invoke cls i c).
Proof.
  intros r. unfold invoke. destruct (motors r !! i) as [[k m]|]; [|reflexivity].
  destruct (method cls c m); reflexivity.
Qed.

Lemma stable_flags_forEach (c : command) : stable flags (forEach cls c).
Proof. intros r. rewrite forEach_state. reflexivity. Qed.

Lemma stable_flags_atJoint (key : string) (c : command) :
  stable flags (atJoint cls key c).
Proof.
  intros r. unfold atJoint. destruct (motorMap key (motors r)); [|reflexivity].
  apply stable_flags_invoke.
Qed.

Lemma stable_flags_emit (ev : string) : stable flags (emit ev).
Proof. intros r. reflexivity. Qed.

Lemma stable_flags_writeConfig : stable flags writeConfig.
Proof. intros r. unfold writeConfig. destruct (config r); reflexivity. Qed.

Lemma stable_flags_config_set_in (joint param : string) (value : jsval) :
  stable flags (config_set_in joint param value).
Proof.
  intros r. unfold config_set_in. destruct (config r) as [c|]; [|reflexivity].
  destruct (c !! joint) as [[v|o]|]; reflexivity.
Qed.

Lemma stable_flags_config_set (key : string) (value : jsval) :
  stable flags (config_set key value).
Proof. intros r. unfold config_set. destruct (config r); reflexivity. Qed.

Lemma stable_flags_motor_set (joint param : string) (value : jsval) :
  stable flags (motor_set joint param value).
Proof.
  intros r. unfold motor_set.
  destruct (motorMap joint (motors r)) as [i|]; [|reflexivity].
  destruct (motors r !! i) as [[k m]|]; reflexivity.
Qed.

Lemma stable_flags_updateConfig (key : string) (value : jsval) (save : bool) :
  stable flags (updateConfig cls key value save).
Proof.
  unfold updateConfig. destruct (loosely_null value); [apply stable_skip|].
  repeat apply stable_andThen.
  - destruct (includes_dot key).
    + repeat apply stable_andThen.
      * apply stable_flags_config_set_in.
      * apply stable_flags_motor_set.
      * apply stable_when, stable_flags_atJoint.
    + apply stable_flags_config_set.
  - apply stable_when, stable_flags_writeConfig.
  - apply stable_flags_emit.
Qed.

Lemma flags_eq (r r' : Robot) :
  flags r = flags r' ->
  home r = home r' /\ homing r = homing r' /\ moving r = moving r'.
Proof. unfold flags. intros H. injection H as _ _ -> -> ->. auto. Qed.

Lemma stable_flags_moving (a : action) : stable flags a -> stable moving a.
Proof. intros H r. apply (flags_eq _ _ (H r)). Qed.

Lemma stable_moving_listener (ev : joint_event) : stable moving (listener ev).
Proof.
  intros r. destruct ev; try reflexivity.
  destruct (state_of_motorHomed ident r) as (_ & _ & _ & _ & _ & H & _).
  exact H.
Qed.

Lemma stable_moving_jointEvent (i : nat) (m' : Motor) (ev : joint_event) :
  stable moving (jointEvent i m' ev).
Proof.
  intros r. unfold jointEvent. destruct (motors r !! i) as [[k m]|];
    [|reflexivity].
  rewrite stable_moving_listener. reflexivity.
Qed.

(** A whole-robot command: a flag is assigned, the command fans out, meta is
    emitted. Whatever the fan-out does, the flags are as the assignment left
    them. *)
Lemma flags_after_command (f : Robot -> Robot) (c : command) (r : Robot) :
  flags (state_of ((assign f ;; forEach cls c ;; emit "meta") r))
  = flags (f r).
Proof.
  change ((assign f ;; forEach cls c ;; emit "meta") r)
    with ((forEach cls c ;; emit "meta") (f r)).
  apply (stable_andThen flags).
  - apply stable_flags_forEach.
  - apply stable_flags_emit.
Qed.

Lemma flags_after_robotHome (r : Robot) :
  flags (state_of (robotHome cls r)) = flags (set_homing true r).
Proof.
  unfold robotHome.
  change ((assign (set_homing true) ;; forEach cls GoHome) r)
    with (forEach cls GoHome (set_homing true r)).
  apply stable_flags_forEach.
Qed.

(** The flags after each operation, in terms of the flags before; for the
    event of a joint, [moving] only (its [home] and [homing] are the subject
    of [state_of_motorHomed]). *)
Lemma flags_after_exec (o : op) (r : Robot) :
  match o with
  | RobotHome => flags (state_of (exec cls o r)) = flags (set_homing true r)
  | RobotStop => flags (state_of (exec cls o r)) = flags (set_stopped true r)
  | RobotCenter => flags (state_of (exec cls o r)) = flags (set_moving true r)
  | RobotReset | RobotEnable =>
      flags (state_of (exec cls o r)) = flags (set_stopped false r)
  | JointEvent _ _ _ => moving (state_of (exec cls o r)) = moving r
  | _ => flags (state_of (exec cls o r)) = flags r
  end.
Proof.
  destruct o; cbn [exec]; try apply stable_flags_atJoint;
    try apply flags_after_command; try reflexivity.
  - unfold writeJointSetPoints. destruct (stopped r); [reflexivity|].
    apply stable_flags_forEach.
  - apply flags_after_robotHome.
  - apply stable_flags_updateConfig.
  - apply stable_flags_writeConfig.
  - apply stable_moving_jointEvent.
Qed.

Lemma moving_after_robotCenter (r : Robot) :
  moving (state_of (robotCenter cls r)) = true.
Proof.
  exact (proj2 (proj2 (flags_eq _ _ (flags_after_exec RobotCenter r)))).
Qed.

(** No operation clears [moving]. *)
Lemma exec_keeps_moving (o : op) (r : Robot) :
  moving r = true -> moving (state_of (exec cls o r)) = true.
Proof.
  intros Hm. assert (H := flags_after_exec o r).
  destruct o; try (rewrite H; exact Hm);
    destruct (flags_eq _ _ H) as (_ & _ & ->); first [exact Hm | reflexivity].
Qed.

Lemma run_keeps_moving (os : list op) (r : Robot) :
  moving r = true -> moving (run cls os r) = true.
Proof.
  revert r. induction os as [|o os IH]; intros r H; [exact H|].
  apply IH, exec_keeps_moving, H.
Qed.

(** [robotHome] is the only operation after which [home] and [homing] can
    both be true when they were not before. *)
Lemma exec_keeps_exclusive (o : op) (r : Robot) :
  o <> RobotHome ->
  home r && homing r = false ->
  home (state_of (exec cls o r)) && homing (state_of (exec cls o r)) = false.
Proof.
  intros Ho Hex. assert (H := flags_after_exec o r).
  destruct o; try congruence;
    try (destruct (flags_eq _ _ H) as (-> & -> & _); exact Hex).
  clear H. cbn [exec]. unfold jointEvent.
  destruct (motors r !! i) as [[k m]|]; [|exact Hex].
  destruct ev; try exact Hex. cbn [listener].
  match goal with
  | |- context [motorHomed ?a ?b] =>
      destruct (state_of_motorHomed a b) as (_ & -> & -> & _)
  end.
  cbn [home homing set_motors].
  match goal with |- context [every_home ?b] => destruct (every_home b) end;
    destruct (home r), (homing r); try reflexivity; discriminate Hex.
Qed.

End Flags.

(** C10. Once [robotCenter] has run, [moving] is true, and it is true after
    every list of operations that follows, whatever they are: ticks, robot
    commands, per-joint commands, config updates and events of the joints,
    whether they return or throw. [meta] reports it so. *)
Theorem moving_never_cleared (cls : MotorClass) (r : Robot) (os : list op) :
  moving (state_of (robotCenter cls r)) = true
  /\ moving (run cls os (state_of (robotCenter cls r))) = true
  /\ meta_moving (meta (run cls os (state_of (robotCenter cls r)))) = true.
Proof.
  assert (H := moving_after_robotCenter cls r).
  split; [exact H|]. split; apply run_keeps_moving; exact H.
Qed.

(** * Further properties of the class *)

(** ** Whole-robot commands (robot.js 192-254) *)

Lemma command_fanout (cls : MotorClass) (f : Robot -> Robot) (c : command)
  (r : Robot) :
  motors (f r) = motors r ->
  trace (f r) = trace r ->
  (assign f ;; forEach cls c ;; emit "meta") r = commanded cls f c true r
  /\ (assign f ;; forEach cls c) r = commanded cls f c false r.
Proof.
  intros Hms Htr. unfold commanded, calls, andThen, assign.
  rewrite forEach_fanout, Hms, Htr.
  destruct (raised cls c (motors r)) as [e|]; simpl;
    rewrite ?app_nil_r; split; try reflexivity.
  unfold emit, assign, log, with_store. simpl. rewrite <- app_assoc.
  reflexivity.
Qed.

(** X1. Each of the five whole-robot commands assigns its flag first, then
    calls its method on the joints in registration order up to the first
    that raises, and throws that error on; [robotStop], [robotCenter],
    [robotReset] and [robotEnable] emit meta, once, only when no joint
    raised, and [robotHome] never emits anything. *)
Theorem robot_commands_fan_out (cls : MotorClass) (r : Robot) :
  robotHome cls r = commanded cls (set_homing true) GoHome false r
  /\ robotStop cls r = commanded cls (set_stopped true) Disable true r
  /\ robotCenter cls r = commanded cls (set_moving true) Zero true r
  /\ robotReset cls r = commanded cls (set_stopped false) Reset true r
  /\ robotEnable cls r = commanded cls (set_stopped false) Enable true r.
Proof.
  repeat split.
  - exact (proj2 (command_fanout cls (set_homing true) GoHome r
                    eq_refl eq_refl)).
  - exact (proj1 (command_fanout cls (set_stopped true) Disable r
                    eq_refl eq_refl)).
  - exact (proj1 (command_fanout cls (set_moving true) Zero r
                    eq_refl eq_refl)).
  - exact (proj1 (command_fanout cls (set_stopped false) Reset r
                    eq_refl eq_refl)).
  - exact (proj1 (command_fanout cls (set_stopped false) Enable r
                    eq_refl eq_refl)).
Qed.

(** X2. When disabling a joint raises during [robotStop] (and no joint before
    it raised), the robot is stopped all the same, the joints before it have
    been told to disable, the joints after it have not been called and are
    as they were, no meta is emitted, and the error reaches the caller. *)
Theorem robotStop_failure (cls : MotorClass) (r : Robot)
  (pre post : list (string * Motor)) (k : string) (m m' : Motor)
  (e : jserror) :
  motors r = pre ++ (k, m) :: post ->
  Forall (fun km => exists m0, method cls Disable (snd km) = Ret m0) pre ->
  method cls Disable m = Raise e m' ->
  robotStop cls r
  = Throw e (with_store (swept cls Disable pre ++ (k, m') :: post)
               (trace r ++ map (fun j => Call j Disable) (map fst pre ++ [k]))
               (set_stopped true r)).
Proof.
  intros Hms Hpre Hm.
  unfold robotStop.
  rewrite (proj1 (command_fanout cls (set_stopped true) Disable r
                    eq_refl eq_refl)).
  unfold commanded, calls. rewrite Hms.
  destruct (reached_raise cls Disable pre post k m m' e
              (raised_all_return _ _ _ Hpre) Hm) as (-> & -> & ->).
  simpl. rewrite app_nil_r. reflexivity.
Qed.

Lemma robotStop_failure_witness :
  robotStop (jammed "j1") jammed3
  = Throw (Thrown (JStr "jam"))
          (with_store (motors jammed3)
                      (trace jammed3 ++ [Call "j0" Disable; Call "j1" Disable])
                      (set_stopped true jammed3)).
Proof.
  rewrite (robotStop_failure (jammed "j1") jammed3
             [("j0", construct calm "j0" 16%Z)]
             [("j2", construct calm "j2" 48%Z)]
             "j1" (construct calm "j1" 32%Z) (construct calm "j1" 32%Z)
             (Thrown (JStr "jam"))).
  - reflexivity.
  - reflexivity.
  - repeat constructor. eexists. reflexivity.
  - reflexivity.
Defined.

(** ** Commands addressed to one joint (robot.js 145-188) *)

Lemma motorMap_middle (pre post : list (string * Motor)) (key : string)
  (m : Motor) :
  key ∉ map fst pre ->
  motorMap key (pre ++ (key, m) :: post) = Some (length pre).
Proof.
  induction pre as [|[k0 m0] rest IH]; simpl; intros H.
  - rewrite String.eqb_refl. reflexivity.
  - destruct (String.eqb_spec k0 key) as [->|Hne].
    + exfalso. apply H. left.
    + rewrite IH; [reflexivity|]. intros Hin. apply H. right. exact Hin.
Qed.

Lemma atJoint_called_on (cls : MotorClass) (c : command) (r : Robot)
  (pre post : list (string * Motor)) (key : string) (m : Motor) :
  motors r = pre ++ (key, m) :: post ->
  key ∉ map fst pre ->
  atJoint cls key c r = called_on cls c pre key m post r.
Proof.
  intros Hms Hpre. unfold atJoint, called_on.
  rewrite Hms, (motorMap_middle pre post key m Hpre).
  apply invoke_middle. exact Hms.
Qed.

(** X3. A per-joint command addressed to a configured joint calls the
    matching method of that joint once, with the arguments it was given
    ([motorSetPosition] calls [setPosition], [motorHome] calls [goHome],
    [motorResetErrors] calls [reset], and so on); the other joints, the flags
    and the config are untouched, nothing is emitted, and an error of the
    method is thrown on with the joint as the method left it. *)
Theorem motor_command_reaches_joint (cls : MotorClass) (r : Robot)
  (pre post : list (string * Motor)) (key : string) (m : Motor) :
  motors r = pre ++ (key, m) :: post ->
  key ∉ map fst pre ->
  (forall position velocity,
     motorSetPosition cls key position velocity r
     = called_on cls (SetPosition position velocity) pre key m post r)
  /\ motorHome cls key r = called_on cls GoHome pre key m post r
  /\ motorResetErrors cls key r = called_on cls Reset pre key m post r
  /\ motorEnable cls key r = called_on cls Enable pre key m post r
  /\ motorDisable cls key r = called_on cls Disable pre key m post r
  /\ motorZero cls key r = called_on cls Zero pre key m post r
  /\ motorCalibrate cls key r = called_on cls Calibrate pre key m post r
  /\ queryMotorPosition cls key r
     = called_on cls QueryPosition pre key m post r
  /\ (forall index subindex,
        queryMotorParamter cls key index subindex r
        = called_on cls (QueryParameter index subindex) pre key m post r).
Proof.
  intros Hms Hpre. repeat split; intros; apply atJoint_called_on; assumption.
Qed.

Lemma motor_command_reaches_joint_witness :
  motorSetPosition calm "j1" (JNum 10) (JNum 5) igus3
  = Normal (with_store (motors igus3)
              (trace igus3 ++ [Call "j1" (SetPosition (JNum 10) (JNum 5))])
              igus3).
Proof.
  refine (proj1 (motor_command_reaches_joint calm igus3
                   [("j0", construct calm "j0" 16%Z)]
                   [("j2", construct calm "j2" 48%Z)]
                   "j1" (construct calm "j1" 32%Z) eq_refl _) _ _).
  vm_compute. intros H.
  repeat (apply elem_of_cons in H as [H|H]; [discriminate H|]).
  inversion H.
Defined.

(** ** The flags along a run *)

Section FlagsAlongRun.

Variable cls : MotorClass.

Lemma flags_inj (r r' : Robot) :
  flags r = flags r' ->
  stopped r = stopped r' /\ ready r = ready r' /\ home r = home r'
  /\ homing r = homing r' /\ moving r = moving r'.
Proof. unfold flags. intros H. injection H as -> -> -> -> ->. auto 6. Qed.

(** The event of a joint changes [home] and [homing] only, and only by the
    step of [motorHomed]. *)
Lemma jointEvent_flags (i : nat) (m' : Motor) (ev : joint_event) (r : Robot) :
  let r' := state_of (jointEvent i m' ev r) in
  stopped r' = stopped r /\ ready r' = ready r /\ moving r' = moving r
  /\ exists b : bool,
       home r' = home r || (homing r && b)
       /\ homing r' = homing r && negb b.
Proof.
  unfold jointEvent. destruct (motors r !! i) as [[k m]|].
  2:{ cbn. repeat split. exists false.
      rewrite andb_false_r, orb_false_r, andb_true_r. auto. }
  destruct ev; cbn [listener];
    try (cbn; repeat split; exists false;
         rewrite andb_false_r, orb_false_r, andb_true_r; auto).
  match goal with
  | |- context [motorHomed ?a ?b] =>
      destruct (state_of_motorHomed a b)
        as (_ & Hhoming & Hhome & Hstopped & Hready & Hmoving & _);
      cbv zeta; rewrite Hhoming, Hhome, Hstopped, Hready, Hmoving;
      repeat split; exists (every_home b); split; reflexivity
  end.
Qed.

(** What one operation does to each flag, however it completes. *)
Lemma exec_flag_effects (o : op) (r : Robot) :
  let r' := state_of (exec cls o r) in
  ready r' = ready r
  /\ stopped r' = match o with
                  | RobotStop => true
                  | RobotReset | RobotEnable => false
                  | _ => stopped r
                  end
  /\ moving r' = match o with RobotCenter => true | _ => moving r end
  /\ (home r = true -> home r' = true)
  /\ (is_robotHome o = false -> homing r = false ->
      home r' = home r /\ homing r' = false).
Proof.
  cbv zeta. assert (H := flags_after_exec cls o r).
  destruct o;
    try (apply flags_inj in H as (Hs & Hr & Hh & Hg & Hm);
         rewrite Hs, Hr, Hh, Hg, Hm;
         repeat split; solve [auto | discriminate]).
  clear H. cbn [exec].
  match goal with
  | |- context [jointEvent ?i ?m ?e r] =>
      destruct (jointEvent_flags i m e r) as (-> & -> & -> & b & -> & ->)
  end.
  split; [reflexivity|]. split; [reflexivity|]. split; [reflexivity|].
  split.
  - intros ->. reflexivity.
  - intros _ ->. split; [apply orb_false_r | reflexivity].
Qed.

(** X4. No operation ever clears [ready] or [home]: a robot that is ready
    stays ready, and a robot that is home stays home, through every list of
    operations, returning or throwing. *)
Theorem ready_and_home_latch (r : Robot) (os : list op) :
  (ready r = true -> ready (run cls os r) = true)
  /\ (home r = true -> home (run cls os r) = true).
Proof.
  revert r. induction os as [|o os IH]; intros r; [split; auto|].
  destruct (exec_flag_effects o r) as (Hr & _ & _ & Hh & _).
  destruct (IH (state_of (exec cls o r))) as [IHr IHh].
  split; intros H; cbn [run fold_left].
  - apply IHr. rewrite Hr. exact H.
  - apply IHh, Hh, H.
Qed.

(** X5. [home] and [homing] change only after [robotHome]: on a robot that
    is not homing, no list of operations without [robotHome] changes either
    flag. Homing every joint on its own with [motorHome], and all their
    home-reached events, never makes the robot home. *)
Theorem home_needs_robotHome (r : Robot) (os : list op) :
  homing r = false ->
  forallb (fun o => negb (is_robotHome o)) os = true ->
  home (run cls os r) = home r /\ homing (run cls os r) = false.
Proof.
  revert r. induction os as [|o os IH]; intros r Hg Hos; [auto|].
  cbn [forallb] in Hos. apply andb_true_iff in Hos as [Ho Hos].
  apply negb_true_iff in Ho.
  destruct (exec_flag_effects o r) as (_ & _ & _ & _ & H).
  destruct (H Ho Hg) as [Hh Hg'].
  cbn [run fold_left]. rewrite <- Hh. apply IH; assumption.
Qed.

End FlagsAlongRun.

Lemma ready_and_home_latch_witness :
  ready (run calm [RobotStop; MotorHome "ghost"; RobotReset; TickState] igus)
  = true.
Proof.
  apply (ready_and_home_latch calm igus). reflexivity.
Defined.

Lemma home_needs_robotHome_witness :
  let homed := setprop "home" (JBool true) (construct calm "j0" 16%Z) in
  home (run calm [MotorHome "j0"; JointEvent 0 homed (EvHome (JStr "j0"))]
            igus)
  = false.
Proof.
  cbv zeta.
  destruct (home_needs_robotHome calm igus
              [MotorHome "j0";
               JointEvent 0 (setprop "home" (JBool true)
                               (construct calm "j0" 16%Z))
                          (EvHome (JStr "j0"))]
              eq_refl eq_refl) as [H _].
  rewrite H. reflexivity.
Defined.

(** ** What no operation touches *)

Lemma same_frame_refl (r : Robot) : same_frame r r.
Proof.
  repeat split; auto. exists []. rewrite app_nil_r. reflexivity.
Qed.

Lemma same_frame_trans (r1 r2 r3 : Robot) :
  same_frame r1 r2 -> same_frame r2 r3 -> same_frame r1 r3.
Proof.
  intros (Hi & Hk & Hc & a & Ht) (Hi' & Hk' & Hc' & a' & Ht').
  repeat split.
  - congruence.
  - congruence.
  - auto.
  - exists (a ++ a'). rewrite Ht', Ht, app_assoc. reflexivity.
Qed.

Lemma keeps_skip (R : Robot -> Robot -> Prop) :
  (forall r, R r r) -> keeps R skip.
Proof. intros H r. apply H. Qed.

Lemma keeps_andThen (R : Robot -> Robot -> Prop) (a b : action) :
  (forall r1 r2 r3, R r1 r2 -> R r2 r3 -> R r1 r3) ->
  keeps R a -> keeps R b -> keeps R (a ;; b).
Proof.
  intros Htrans Ha Hb r. unfold andThen. specialize (Ha r).
  destruct (a r) as [r'|e r']; simpl in *; [|exact Ha].
  exact (Htrans _ _ _ Ha (Hb r')).
Qed.

Lemma keeps_when (R : Robot -> Robot -> Prop) (b : bool) (a : action) :
  (forall r, R r r) -> keeps R a -> keeps R (when b a).
Proof. intros Hrefl Ha. destruct b; [exact Ha | apply keeps_skip, Hrefl]. Qed.

Lemma keys_insert (ms : list (string * Motor)) (i : nat) (k : string)
  (m m' : Motor) :
  ms !! i = Some (k, m) -> map fst (<[i := (k, m')]> ms) = map fst ms.
Proof.
  revert i. induction ms as [|[k0 m0] rest IH]; intros [|i] H; simpl in *;
    try discriminate.
  - injection H as -> _. reflexivity.
  - rewrite (IH i H). reflexivity.
Qed.

(** The robot changed in its flags, its config while defined, the motors
    under their keys, and by one more effect: the frame is kept. *)
Lemma same_frame_intro (r r' : Robot) (added : list effect) :
  id r' = id r ->
  map fst (motors r') = map fst (motors r) ->
  (config r = None -> config r' = None) ->
  trace r' = trace r ++ added ->
  same_frame r r'.
Proof. intros. repeat split; eauto. Qed.

Section Frame.

Variable cls : MotorClass.

Lemma frame_assign_flag (f : Robot -> Robot) :
  (forall r, id (f r) = id r /\ motors (f r) = motors r
             /\ config (f r) = config r /\ trace (f r) = trace r) ->
  keeps same_frame (assign f).
Proof.
  intros H r. destruct (H r) as (Hi & Hm & Hc & Ht). cbn.
  apply (same_frame_intro _ _ []); rewrite ?app_nil_r; congruence.
Qed.

Lemma frame_emit (ev : string) : keeps same_frame (emit ev).
Proof. intros r. apply (same_frame_intro _ _ [Emit ev]); auto. Qed.

Lemma frame_invoke (i : nat) (c : command) : keeps same_frame (invoke cls i c).
Proof.
  intros r. unfold invoke.
  destruct (motors r !! i) as [[k m]|] eqn:Hm; [|apply same_frame_refl].
  destruct (method cls c m) as [m'|e m']; cbn;
    apply (same_frame_intro _ _ [Call k c]); cbn; auto;
    apply (keys_insert _ _ _ m); exact Hm.
Qed.

Lemma frame_forEach (c : command) : keeps same_frame (forEach cls c).
Proof.
  intros r. rewrite forEach_state.
  apply (same_frame_intro _ _ (calls cls c (motors r))); cbn; auto.
  apply swept_keys.
Qed.

Lemma frame_atJoint (key : string) (c : command) :
  keeps same_frame (atJoint cls key c).
Proof.
  intros r. unfold atJoint.
  destruct (motorMap key (motors r)); [apply frame_invoke|].
  apply same_frame_refl.
Qed.

Lemma frame_writeConfig : keeps same_frame writeConfig.
Proof.
  intros r. unfold writeConfig. destruct (config r) as [c|] eqn:Hc;
    [|apply same_frame_refl].
  apply (same_frame_intro _ _ [WriteFile c]); cbn; auto.
Qed.

Lemma frame_config_set_in (joint param : string) (value : jsval) :
  keeps same_frame (config_set_in joint param value).
Proof.
  intros r. unfold config_set_in.
  destruct (config r) as [c|] eqn:Hc; [|apply same_frame_refl].
  destruct (c !! joint) as [[v|o]|]; try apply same_frame_refl.
  apply (same_frame_intro _ _ []); cbn; rewrite ?app_nil_r; auto.
  rewrite Hc. discriminate.
Qed.

Lemma frame_config_set (key : string) (value : jsval) :
  keeps same_frame (config_set key value).
Proof.
  intros r. unfold config_set.
  destruct (config r) as [c|] eqn:Hc; [|apply same_frame_refl].
  apply (same_frame_intro _ _ []); cbn; rewrite ?app_nil_r; auto.
  rewrite Hc. discriminate.
Qed.

Lemma frame_motor_set (joint param : string) (value : jsval) :
  keeps same_frame (motor_set joint param value).
Proof.
  intros r. unfold motor_set.
  destruct (motorMap joint (motors r)) as [i|]; [|apply same_frame_refl].
  destruct (motors r !! i) as [[k m]|] eqn:Hm; [|apply same_frame_refl].
  apply (same_frame_intro _ _ []); cbn; rewrite ?app_nil_r; auto.
  apply (keys_insert _ _ _ m); exact Hm.
Qed.

Lemma frame_updateConfig (key : string) (value : jsval) (save : bool) :
  keeps same_frame (updateConfig cls key value save).
Proof.
  unfold updateConfig.
  destruct (loosely_null value); [apply keeps_skip, same_frame_refl|].
  repeat apply keeps_andThen; try exact same_frame_trans.
  - destruct (includes_dot key).
    + repeat apply keeps_andThen; try exact same_frame_trans.
      * apply frame_config_set_in.
      * apply frame_motor_set.
      * apply keeps_when; [exact same_frame_refl | apply frame_atJoint].
    + apply frame_config_set.
  - apply keeps_when; [exact same_frame_refl | apply frame_writeConfig].
  - apply frame_emit.
Qed.

Lemma frame_command (f : Robot -> Robot) (c : command) :
  (forall r, id (f r) = id r /\ motors (f r) = motors r
             /\ config (f r) = config r /\ trace (f r) = trace r) ->
  keeps same_frame (assign f ;; forEach cls c ;; emit "meta").
Proof.
  intros H. repeat apply keeps_andThen; try exact same_frame_trans.
  - apply frame_assign_flag, H.
  - apply frame_forEach.
  - apply frame_emit.
Qed.

Lemma frame_motorHomed (ident : jsval) : keeps same_frame (motorHomed ident).
Proof.
  unfold motorHomed. repeat apply keeps_andThen; try exact same_frame_trans.
  - intros r. destruct (homing r && every_home r); cbn;
      [|apply same_frame_refl].
    apply (same_frame_intro _ _ []); cbn; rewrite ?app_nil_r; auto.
  - apply frame_emit.
  - apply frame_emit.
Qed.

Lemma frame_jointEvent (i : nat) (m' : Motor) (ev : joint_event) :
  keeps same_frame (jointEvent i m' ev).
Proof.
  intros r. unfold jointEvent.
  destruct (motors r !! i) as [[k m]|] eqn:Hm; [|apply same_frame_refl].
  apply (same_frame_trans _
           (set_motors (<[i := (k, m')]> (motors r)) r)).
  - apply (same_frame_intro _ _ []); cbn; rewrite ?app_nil_r; auto.
    apply (keys_insert _ _ _ m); exact Hm.
  - destruct ev; try apply frame_emit. apply frame_motorHomed.
Qed.

Lemma frame_exec (o : op) : keeps same_frame (exec cls o).
Proof.
  destruct o; cbn [exec]; try apply frame_atJoint; try apply frame_emit;
    try (apply frame_command; intros r; auto).
  - intros r. unfold writeJointSetPoints.
    destruct (stopped r); [apply same_frame_refl | apply frame_forEach].
  - unfold robotHome. apply keeps_andThen; [exact same_frame_trans | |].
    + apply frame_assign_flag. intros r. auto.
    + apply frame_forEach.
  - apply frame_updateConfig.
  - apply frame_writeConfig.
  - apply frame_jointEvent.
Qed.

Lemma frame_run (os : list op) (r : Robot) : same_frame r (run cls os r).
Proof.
  revert r. induction os as [|o os IH]; intros r; [apply same_frame_refl|].
  cbn [run fold_left].
  exact (same_frame_trans _ _ _ (frame_exec o r) (IH _)).
Qed.

(** X6. No operation adds, removes, renames or reorders a joint, changes the
    id of the robot, defines a config that was left undefined, or takes
    anything back from the record of effects: after every list of operations
    the keys of the joints and the id are the same, an undefined config is
    still undefined, and the trace is the old trace with effects appended. *)
Theorem run_keeps_frame (r : Robot) (os : list op) :
  id (run cls os r) = id r
  /\ map fst (motors (run cls os r)) = map fst (motors r)
  /\ (config r = None -> config (run cls os r) = None)
  /\ exists added, trace (run cls os r) = trace r ++ added.
Proof.
  destruct (frame_run os r) as (Hid & Hkeys & Hconfig & Htrace).
  repeat split; assumption.
Qed.

End Frame.

Lemma run_keeps_frame_witness :
  map fst (motors (run calm [RobotStop; UpdateConfig "j1.x" (JNum 1) true;
                             MotorZero "j2"; RobotEnable] igus3))
  = ["j0"; "j1"; "j2"].
Proof.
  rewrite (proj1 (proj2 (run_keeps_frame calm igus3 _))). reflexivity.
Defined.

(** ** Stopping suppresses the dispatch (robot.js 130-141, 203-254) *)

Lemma writes_log (e : effect) (r : Robot) :
  set_point_writes (log e r)
  = set_point_writes r ++ (if is_write e then [e] else []).
Proof.
  unfold set_point_writes, log. cbn [trace]. rewrite List.filter_app. cbn.
  destruct (is_write e); reflexivity.
Qed.

Section Dispatch.

Variable cls : MotorClass.

Lemma writes_emit (ev : string) : stable set_point_writes (emit ev).
Proof.
  intros r. change (state_of (emit ev r)) with (log (Emit ev) r).
  rewrite writes_log. apply app_nil_r.
Qed.

Lemma writes_writeConfig : stable set_point_writes writeConfig.
Proof.
  intros r. unfold writeConfig. destruct (config r) as [c|]; [|reflexivity].
  change (state_of (Normal (log (WriteFile c) r))) with (log (WriteFile c) r).
  rewrite writes_log. apply app_nil_r.
Qed.

Lemma writes_invoke (i : nat) (c : command) :
  c <> WriteJointSetPoints -> stable set_point_writes (invoke cls i c).
Proof.
  intros Hc r. unfold invoke.
  destruct (motors r !! i) as [[k m]|]; [|reflexivity].
  assert (Hw : set_point_writes (log (Call k c) r) = set_point_writes r).
  { rewrite writes_log. destruct c; try apply app_nil_r. congruence. }
  destruct (method cls c m); exact Hw.
Qed.

Lemma writes_forEach (c : command) :
  c <> WriteJointSetPoints -> stable set_point_writes (forEach cls c).
Proof.
  intros Hc r. rewrite forEach_state. unfold set_point_writes.
  cbn [trace with_store].
  rewrite List.filter_app.
  induction (reached cls c (motors r)) as [|k ks IH]; [apply app_nil_r|].
  cbn [map List.filter]. destruct c; try exact IH. congruence.
Qed.

Lemma writes_atJoint (key : string) (c : command) :
  c <> WriteJointSetPoints -> stable set_point_writes (atJoint cls key c).
Proof.
  intros Hc r. unfold atJoint.
  destruct (motorMap key (motors r)); [apply writes_invoke, Hc | reflexivity].
Qed.

Lemma writes_updateConfig (key : string) (value : jsval) (save : bool) :
  stable set_point_writes (updateConfig cls key value save).
Proof.
  unfold updateConfig. destruct (loosely_null value); [apply stable_skip|].
  repeat apply stable_andThen.
  - destruct (includes_dot key).
    + repeat apply stable_andThen.
      * intros r. unfold config_set_in. destruct (config r) as [c|];
          [|reflexivity].
        destruct (c !! _) as [[v|o]|]; reflexivity.
      * intros r. unfold motor_set.
        destruct (motorMap _ (motors r)) as [i|]; [|reflexivity].
        destruct (motors r !! i) as [[k m]|]; reflexivity.
      * apply stable_when, writes_atJoint. discriminate.
    + intros r. unfold config_set. destruct (config r); reflexivity.
  - apply stable_when, writes_writeConfig.
  - apply writes_emit.
Qed.

Lemma writes_listener (ev : joint_event) :
  stable set_point_writes (listener ev).
Proof.
  destruct ev; try apply writes_emit.
  cbn [listener]. unfold motorHomed.
  repeat apply stable_andThen; try apply writes_emit.
  intros r. destruct (homing r && every_home r); reflexivity.
Qed.

Lemma writes_jointEvent (i : nat) (m' : Motor) (ev : joint_event) :
  stable set_point_writes (jointEvent i m' ev).
Proof.
  intros r. unfold jointEvent.
  destruct (motors r !! i) as [[k m]|]; [|reflexivity].
  rewrite writes_listener. reflexivity.
Qed.

Lemma writes_command (f : Robot -> Robot) (c : command) :
  c <> WriteJointSetPoints ->
  (forall r, trace (f r) = trace r) ->
  stable set_point_writes (assign f ;; forEach cls c ;; emit "meta").
Proof.
  intros Hc Hf. repeat apply stable_andThen.
  - intros r. cbn. unfold set_point_writes. rewrite Hf. reflexivity.
  - apply writes_forEach, Hc.
  - apply writes_emit.
Qed.

(** On a stopped robot no operation writes a set point. *)
Lemma writes_exec_stopped (o : op) (r : Robot) :
  stopped r = true ->
  set_point_writes (state_of (exec cls o r)) = set_point_writes r.
Proof.
  intros Hs. destruct o; cbn [exec];
    try (apply writes_atJoint; discriminate);
    try apply writes_emit;
    try (apply writes_command; [discriminate | reflexivity]).
  - unfold writeJointSetPoints. rewrite Hs. reflexivity.
  - unfold robotHome. apply stable_andThen.
    + intros r0. reflexivity.
    + apply writes_forEach. discriminate.
  - apply writes_updateConfig.
  - apply writes_writeConfig.
  - apply writes_jointEvent.
Qed.

(** X7. [robotStop] stops the dispatch whether or not its own fan-out
    succeeds: after it, through every list of operations that contains
    neither [robotReset] nor [robotEnable], the robot stays stopped and no
    set-point write reaches any joint, whatever ticks, commands, config
    updates and joint events occur; [robotReset] and [robotEnable] end the
    stop, again whether or not their fan-out succeeds. *)
Theorem robotStop_suppresses_dispatch (r : Robot) (os : list op) :
  forallb (fun o => negb (rearms o)) os = true ->
  let r1 := state_of (robotStop cls r) in
  stopped (run cls os r1) = true
  /\ set_point_writes (run cls os r1) = set_point_writes r
  /\ stopped (state_of (robotReset cls (run cls os r1))) = false
  /\ stopped (state_of (robotEnable cls (run cls os r1))) = false.
Proof.
  intros Hos. cbv zeta.
  assert (H1 : stopped (state_of (robotStop cls r)) = true).
  { exact (proj1 (proj2 (exec_flag_effects cls RobotStop r))). }
  assert (H2 : set_point_writes (state_of (robotStop cls r))
               = set_point_writes r).
  { apply writes_command; [discriminate | reflexivity]. }
  revert H1 H2. generalize (state_of (robotStop cls r)) as r1.
  induction os as [|o os IH]; intros r1 H1 H2.
  - cbn [run fold_left]. repeat split; auto.
    + exact (proj1 (proj2 (exec_flag_effects cls RobotReset r1))).
    + exact (proj1 (proj2 (exec_flag_effects cls RobotEnable r1))).
  - cbn [forallb] in Hos. apply andb_true_iff in Hos as [Ho Hos].
    apply negb_true_iff in Ho. cbn [run fold_left]. apply (IH Hos).
    + rewrite (proj1 (proj2 (exec_flag_effects cls o r1))).
      destruct o; try exact H1; try reflexivity; discriminate Ho.
    + rewrite writes_exec_stopped by exact H1. exact H2.
Qed.

End Dispatch.

Lemma robotStop_suppresses_dispatch_witness :
  set_point_writes
    (run calm [TickSetPoints; MotorEnable "j0"; TickSetPoints; RobotHome;
               TickSetPoints]
         (state_of (robotStop calm igus3)))
  = [].
Proof.
  rewrite (proj1 (proj2 (robotStop_suppresses_dispatch calm igus3
                           [TickSetPoints; MotorEnable "j0"; TickSetPoints;
                            RobotHome; TickSetPoints] eq_refl))).
  reflexivity.
Defined.

(** ** The joint the constructor creates (robot.js 50-75) *)

(** X8. The class gives the robot exactly one joint, stored under [j0] and
    constructed with id [j0] and CAN id 0x10, whatever the config file
    holds; and in every state the robot reaches afterwards the joints are
    still exactly that one, which [motorMap] resolves under [j0]. *)
Theorem new_Robot_joints (cls : MotorClass) (ident : string) (d : disk)
  (os : list op) :
  motors (state_of (new_Robot cls ident d))
  = [("j0", construct cls "j0" 16%Z)]
  /\ map fst (motors (run cls os (state_of (new_Robot cls ident d))))
     = ["j0"]
  /\ exists m,
       motorMap "j0" (motors (run cls os (state_of (new_Robot cls ident d))))
       = Some 0
       /\ motors (run cls os (state_of (new_Robot cls ident d))) !! 0
          = Some ("j0", m).
Proof.
  assert (H0 : motors (state_of (new_Robot cls ident d))
               = [("j0", construct cls "j0" 16%Z)]).
  { destruct d; reflexivity. }
  destruct (frame_run cls os (state_of (new_Robot cls ident d)))
    as (_ & Hkeys & _).
  rewrite H0 in Hkeys. cbn [map fst] in Hkeys.
  split; [exact H0|]. split; [exact Hkeys|].
  destruct (motors (run cls os (state_of (new_Robot cls ident d))))
    as [|[k m] [|km rest]]; try discriminate Hkeys.
  injection Hkeys as ->. exists m. split; reflexivity.
Qed.

(** ** Configuration updates (robot.js 343-377) *)

Lemma split_dot_plain (p : string) :
  includes_dot p = false -> split_dot p = [p].
Proof.
  induction p as [|a p IH]; simpl; intros H; [reflexivity|].
  apply orb_false_iff in H as [Ha Hp]. rewrite Ha, (IH Hp). reflexivity.
Qed.

(** The two segments [updateConfig] reads from a key [j.p] or [j.p.rest]. *)
Lemma key_segments (j p : string) (rest : option string) :
  includes_dot j = false ->
  includes_dot p = false ->
  let key := match rest with
             | None => (j ++ String "." p)%string
             | Some q => (j ++ String "." (p ++ String "." q))%string
             end in
  includes_dot key = true
  /\ nth 0 (split_dot key) "" = j
  /\ nth 1 (split_dot key) "" = p.
Proof.
  intros Hj Hp. destruct rest as [q|]; cbv zeta.
  - destruct (split_dot_app j (p ++ String "." q) Hj) as [-> ->].
    destruct (split_dot_app p q Hp) as [-> _]. auto.
  - destruct (split_dot_app j p Hj) as [-> ->].
    rewrite (split_dot_plain p Hp). auto.
Qed.

Section ConfigUpdates.

Variable cls : MotorClass.

(** [updateConfig] looks at its key only through [includes] and the first
    two segments of [split]. *)
Lemma updateConfig_by_segments (key key' : string) (value : jsval)
  (save : bool) (r : Robot) :
  includes_dot key = includes_dot key' ->
  (includes_dot key = true ->
   nth 0 (split_dot key) "" = nth 0 (split_dot key') ""
   /\ nth 1 (split_dot key) "" = nth 1 (split_dot key') "") ->
  (includes_dot key = false -> key = key') ->
  updateConfig cls key value save r = updateConfig cls key' value save r.
Proof.
  intros Hd Hseg Hplain. unfold updateConfig. rewrite <- Hd.
  destruct (includes_dot key).
  - destruct (Hseg eq_refl) as [-> ->]. reflexivity.
  - rewrite (Hplain eq_refl). reflexivity.
Qed.

(** X9. Only the first two segments of a dotted key count: for a joint
    segment [j] and a parameter segment [p], [updateConfig('j.p.rest', v,
    persist)] does exactly what [updateConfig('j.p', v, persist)] does,
    whatever [rest] is. *)
Theorem updateConfig_extra_segments (j p rest : string) (value : jsval)
  (save : bool) (r : Robot) :
  includes_dot j = false ->
  includes_dot p = false ->
  updateConfig cls (j ++ String "." (p ++ String "." rest))%string value
    save r
  = updateConfig cls (j ++ String "." p)%string value save r.
Proof.
  intros Hj Hp.
  destruct (key_segments j p (Some rest) Hj Hp) as (Hd & H0 & H1).
  destruct (key_segments j p None Hj Hp) as (Hd' & H0' & H1').
  cbv zeta in *. apply updateConfig_by_segments.
  - congruence.
  - intros _. split; congruence.
  - congruence.
Qed.

(** A dotted key that addresses an existing joint whose section the config
    holds. *)
Lemma updateConfig_joint (key joint param : string) (value : jsval)
  (save : bool) (r : Robot) (i : nat) (m : Motor) (c : gmap string centry)
  (o : gmap string jsval) :
  includes_dot key = true ->
  nth 0 (split_dot key) "" = joint ->
  nth 1 (split_dot key) "" = param ->
  loosely_null value = false ->
  motorMap joint (motors r) = Some i ->
  motors r !! i = Some (joint, m) ->
  config r = Some c ->
  c !! joint = Some (CObj o) ->
  let c' := <[joint := CObj (<[param := value]> o)]> c in
  let persisted := if save then [WriteFile c'] else [] in
  updateConfig cls key value save r
  = if String.eqb param "limitAdj"
    then match method cls UpdateZeroStep (setprop param value m) with
         | Ret m' =>
             Normal (with_config c' (<[i := (joint, m')]> (motors r))
                       (trace r ++ Call joint UpdateZeroStep
                          :: persisted ++ [Emit "meta"]) r)
         | Raise e m' =>
             Throw e (with_config c' (<[i := (joint, m')]> (motors r))
                        (trace r ++ [Call joint UpdateZeroStep]) r)
         end
    else Normal (with_config c'
                   (<[i := (joint, setprop param value m)]> (motors r))
                   (trace r ++ persisted ++ [Emit "meta"]) r).
Proof.
  intros Hdot Hj Hp Hv Hmap Hm Hc Ho.
  assert (Hi : i < length (motors r)).
  { apply lookup_lt_is_Some. eauto. }
  unfold updateConfig. rewrite Hv, Hdot, Hj, Hp. cbv zeta.
  unfold andThen, config_set_in, motor_set, when, atJoint.
  rewrite Hc, Ho. cbn [motors set_config]. rewrite Hmap, Hm.
  cbn [motors set_motors].
  destruct (String.eqb param "limitAdj"); cbn [motors set_motors set_config].
  - rewrite (motorMap_insert joint joint m (setprop param value m)
               (motors r) i Hm).
    rewrite Hmap. unfold invoke. cbn [motors log set_motors].
    rewrite list_lookup_insert_eq by exact Hi.
    destruct (method cls UpdateZeroStep (setprop param value m)) as [m'|e m'];
      rewrite list_insert_insert_eq; [|reflexivity].
    destruct save; unfold writeConfig, emit, assign, log, set_motors,
      with_config; cbn; rewrite <- ?app_assoc; reflexivity.
  - destruct save; unfold skip, writeConfig, emit, assign, log, set_motors,
      set_config, with_config; cbn; rewrite <- ?app_assoc; reflexivity.
Qed.

(** X10. For an existing joint [j] with a section in the config and a
    parameter [p] other than [limitAdj] and [__proto__] (which is no
    parameter: assigning to it stores nothing), [updateConfig('j.p', v,
    persist)] with non-null [v] sets [config.j.p] and the property [p] of the
    live joint to [v], calls no method of any joint, writes the updated
    config to the store exactly when [persist] is true, and then emits one
    meta. *)
Theorem updateConfig_joint_param (j p : string) (value : jsval) (save : bool)
  (r : Robot) (i : nat) (m : Motor) (c : gmap string centry)
  (o : gmap string jsval) :
  includes_dot j = false ->
  includes_dot p = false ->
  p <> "limitAdj" ->
  p <> "__proto__" ->
  j <> "__proto__" ->
  loosely_null value = false ->
  motorMap j (motors r) = Some i ->
  motors r !! i = Some (j, m) ->
  config r = Some c ->
  c !! j = Some (CObj o) ->
  updateConfig cls (j ++ String "." p)%string value save r
  = Normal (with_config (<[j := CObj (<[p := value]> o)]> c)
              (<[i := (j, setprop p value m)]> (motors r))
              (trace r
               ++ (if save
                   then [WriteFile (<[j := CObj (<[p := value]> o)]> c)]
                   else [])
               ++ [Emit "meta"]) r).
Proof.
  intros Hj Hp Hne _ _ Hv Hmap Hm Hc Ho.
  destruct (key_segments j p None Hj Hp) as (Hd & H0 & H1). cbv zeta in *.
  rewrite (updateConfig_joint _ j p value save r i m c o Hd H0 H1 Hv Hmap Hm
             Hc Ho).
  cbv zeta. apply String.eqb_neq in Hne. rewrite Hne. reflexivity.
Qed.

(** X11. When the joint's [updateZeroStep] raises, [updateConfig('j.limitAdj',
    v, persist)] throws that error after both writes: [config.j.limitAdj] is
    [v] and the joint is as the method left it, yet nothing is written to the
    store, even when [persist] is true, and no meta is emitted. *)
Theorem updateConfig_limitAdj_raise (j : string) (value : jsval) (save : bool)
  (r : Robot) (i : nat) (m m' : Motor) (e : jserror)
  (c : gmap string centry) (o : gmap string jsval) :
  includes_dot j = false ->
  loosely_null value = false ->
  motorMap j (motors r) = Some i ->
  motors r !! i = Some (j, m) ->
  config r = Some c ->
  c !! j = Some (CObj o) ->
  method cls UpdateZeroStep (setprop "limitAdj" value m) = Raise e m' ->
  updateConfig cls (j ++ ".limitAdj")%string value save r
  = Throw e (with_config (<[j := CObj (<["limitAdj" := value]> o)]> c)
               (<[i := (j, m')]> (motors r))
               (trace r ++ [Call j UpdateZeroStep]) r).
Proof.
  intros Hj Hv Hmap Hm Hc Ho Hz.
  destruct (key_segments j "limitAdj" None Hj eq_refl) as (Hd & H0 & H1).
  cbv zeta in *.
  change (j ++ ".limitAdj")%string with (j ++ String "." "limitAdj")%string.
  rewrite (updateConfig_joint _ j "limitAdj" value save r i m c o Hd H0 H1 Hv
             Hmap Hm Hc Ho).
  cbv zeta. change (String.eqb "limitAdj" "limitAdj") with true. cbv iota.
  rewrite Hz. reflexivity.
Qed.

(** X12. A key without a dot, other than [__proto__] (under which an
    assignment stores nothing), is a global entry: while the config is
    defined, [updateConfig(key, v, persist)] with non-null [v] stores [v]
    under [key], touches no joint and calls no method, writes the updated
    config to the store exactly when [persist] is true, and then emits one
    meta; while the config is undefined it throws and changes nothing. *)
Theorem updateConfig_global_key (key : string) (value : jsval) (save : bool)
  (r : Robot) :
  includes_dot key = false ->
  key <> "__proto__" ->
  loosely_null value = false ->
  updateConfig cls key value save r
  = match config r with
    | Some c =>
        Normal (with_config (<[key := CVal value]> c) (motors r)
                  (trace r
                   ++ (if save then [WriteFile (<[key := CVal value]> c)]
                       else [])
                   ++ [Emit "meta"]) r)
    | None => Throw TypeError r
    end.
Proof.
  intros Hd _ Hv. unfold updateConfig. rewrite Hv, Hd.
  unfold andThen, config_set. destruct (config r) as [c|]; [|reflexivity].
  destruct save; unfold when, skip, writeConfig, emit, assign, log,
    set_config, with_config; cbn; rewrite <- ?app_assoc; reflexivity.
Qed.

Lemma updateConfig_no_config (key : string) (value : jsval) (save : bool)
  (r : Robot) :
  loosely_null value = false ->
  config r = None ->
  updateConfig cls key value save r = Throw TypeError r.
Proof.
  intros Hv Hc. unfold updateConfig. rewrite Hv.
  destruct (includes_dot key); cbv zeta;
    unfold andThen, config_set_in, config_set; rewrite Hc; reflexivity.
Qed.

(** X13. A config file that cannot be read at construction is never made
    good: in every state the robot reaches, every [updateConfig] with a
    non-null value throws and leaves the robot as it was, and [writeConfig]
    writes nothing. *)
Theorem unreadable_config_forever (joints : list (string * Z))
  (ident : string) (os : list op) (key : string) (value : jsval)
  (save : bool) :
  loosely_null value = false ->
  let r :=
    run cls os (state_of (new_Robot_with cls joints ident Unreadable)) in
  config r = None
  /\ updateConfig cls key value save r = Throw TypeError r
  /\ writeConfig r = Normal r.
Proof.
  intros Hv. cbv zeta.
  set (r0 := state_of (new_Robot_with cls joints ident Unreadable)).
  destruct (frame_run cls os r0) as (_ & _ & Hnone & _).
  specialize (Hnone eq_refl). split; [exact Hnone|]. split.
  - apply updateConfig_no_config; assumption.
  - unfold writeConfig. rewrite Hnone. reflexivity.
Qed.

End ConfigUpdates.

Lemma updateConfig_extra_segments_witness :
  updateConfig calm "j0.gear.ratio" (JNum 2) true tuned
  = updateConfig calm "j0.gear" (JNum 2) true tuned.
Proof.
  exact (updateConfig_extra_segments calm "j0" "gear" "ratio" (JNum 2) true
           tuned eq_refl eq_refl).
Defined.

Lemma updateConfig_joint_param_witness :
  exists r',
    updateConfig calm "j0.gear" (JNum 2) true tuned = Normal r'
    /\ config r'
       = Some {[ "j0" := CObj {[ "limitAdj" := JNum 0; "gear" := JNum 2 ]} ]}
    /\ trace r'
       = trace tuned
         ++ [WriteFile
               {[ "j0" := CObj {[ "limitAdj" := JNum 0; "gear" := JNum 2 ]} ]};
             Emit "meta"].
Proof.
  eexists. split.
  - apply (updateConfig_joint_param calm "j0" "gear" (JNum 2) true tuned 0
             (construct calm "j0" 16%Z)
             {[ "j0" := CObj {[ "limitAdj" := JNum 0 ]} ]}
             {[ "limitAdj" := JNum 0 ]});
      try reflexivity; discriminate.
  - split; vm_compute; reflexivity.
Defined.

Lemma updateConfig_limitAdj_raise_witness :
  exists r',
    updateConfig (jammed "j0") "j0.limitAdj" (JNum 5) true stuck
    = Throw (Thrown (JStr "jam")) r'
    /\ config r' = Some {[ "j0" := CObj {[ "limitAdj" := JNum 5 ]} ]}
    /\ trace r' = trace stuck ++ [Call "j0" UpdateZeroStep].
Proof.
  eexists. split.
  - apply (updateConfig_limitAdj_raise (jammed "j0") "j0" (JNum 5) true stuck
             0 (construct calm "j0" 16%Z)
             (setprop "limitAdj" (JNum 5) (construct calm "j0" 16%Z))
             (Thrown (JStr "jam"))
             {[ "j0" := CObj {[ "limitAdj" := JNum 0 ]} ]}
             {[ "limitAdj" := JNum 0 ]});
      reflexivity.
  - split; vm_compute; reflexivity.
Defined.

Lemma updateConfig_global_key_witness :
  updateConfig calm "speed" (JNum 3) true igus
  = Normal (with_config {[ "speed" := CVal (JNum 3) ]} (motors igus)
              (trace igus
               ++ [WriteFile {[ "speed" := CVal (JNum 3) ]}; Emit "meta"])
              igus).
Proof.
  rewrite (updateConfig_global_key calm "speed" (JNum 3) true igus).
  - reflexivity.
  - reflexivity.
  - discriminate.
  - reflexivity.
Defined.

Lemma unreadable_config_forever_witness :
  let r := run calm [RobotHome; UpdateConfig "speed" (JNum 3) true]
               (state_of (new_Robot calm "igus" Unreadable)) in
  updateConfig calm "j0.limitAdj" (JNum 5) false r = Throw TypeError r.
Proof.
  exact (proj1 (proj2 (unreadable_config_forever calm source_joints "igus"
                         [RobotHome; UpdateConfig "speed" (JNum 3) true]
                         "j0.limitAdj" (JNum 5) false eq_refl))).
Defined.

(** ** The events of the joints (robot.js 65-71, 106-125) *)

(** X14. An event of a joint always ends in a broadcast, state for the
    events homing, disabled, enabled and reset, meta and then state for the
    home event, whether or not anything changed. Only the home event can
    change a flag: after any of the other four events all five flags are as
    before, however many joints are homed by then. *)
Theorem joint_event_broadcast (i : nat) (m' : Motor) (ev : joint_event)
  (r : Robot) (k : string) (m : Motor) :
  motors r !! i = Some (k, m) ->
  let r' := state_of (jointEvent i m' ev r) in
  (exists r0, jointEvent i m' ev r = Normal r0)
  /\ motors r' = <[i := (k, m')]> (motors r)
  /\ config r' = config r
  /\ trace r' = trace r ++ match ev with
                           | EvHome _ => [Emit "meta"; Emit "state"]
                           | _ => [Emit "state"]
                           end
  /\ match ev with
     | EvHome _ => True
     | _ => flags r' = flags r
     end.
Proof.
  intros Hm. unfold jointEvent. rewrite Hm.
  destruct ev; cbn [listener]; try (cbn; eauto 10).
  unfold motorHomed, andThen, emit, assign.
  match goal with
  | |- context [if ?b then _ else _] => destruct b
  end; cbn; rewrite <- ?app_assoc; eauto 10.
Qed.

Lemma joint_event_broadcast_witness :
  let homed := setprop "home" (JBool true) (construct calm "j0" 16%Z) in
  trace (state_of (jointEvent 0 homed (EvHome (JStr "j0")) igus3))
  = trace igus3 ++ [Emit "meta"; Emit "state"]
  /\ flags (state_of (jointEvent 0 homed EvEnabled igus3)) = flags igus3.
Proof.
  cbv zeta. split.
  - exact (proj1 (proj2 (proj2 (proj2
             (joint_event_broadcast 0 _ (EvHome (JStr "j0")) igus3 "j0"
                (construct calm "j0" 16%Z) eq_refl))))).
  - exact (proj2 (proj2 (proj2 (proj2
             (joint_event_broadcast 0 _ EvEnabled igus3 "j0"
                (construct calm "j0" 16%Z) eq_refl))))).
Defined.

(** ** The state projection (robot.js 261-273) *)

Section StateProjection.

Variable Snapshot : Type.
Variable motor_state : Motor -> Snapshot.
Variable to_key : jsval -> string.
Hypothesis to_key_string : forall s, to_key (JStr s) = s.

Lemma collect_states_lookup (ms : list (string * Motor))
  (acc : gmap string Snapshot) (k : string) :
  NoDup (map fst ms) ->
  Forall (fun km => getprop (snd km) "id" = JStr (fst km)) ms ->
  (forall i m, ms !! i = Some (k, m) ->
     collect_states Snapshot motor_state to_key ms acc !! k
     = Some (motor_state m))
  /\ (k ∉ map fst ms ->
      collect_states Snapshot motor_state to_key ms acc !! k = acc !! k).
Proof.
  revert acc. induction ms as [|[k0 m0] rest IH]; intros acc Hnd Hids.
  - split; [intros i m H; destruct i; discriminate H | reflexivity].
  - cbn [map fst] in Hnd. apply NoDup_cons in Hnd as [Hk0 Hnd].
    apply Forall_cons in Hids as [Hid Hids]. cbn [fst snd] in Hid.
    unfold collect_states. cbn [fold_left snd]. rewrite Hid, to_key_string.
    fold (collect_states Snapshot motor_state to_key rest
            (<[k0 := motor_state m0]> acc)).
    destruct (IH (<[k0 := motor_state m0]> acc) Hnd Hids) as [IH1 IH2].
    split.
    + intros [|i] m H; cbn in H.
      * injection H as -> ->. rewrite IH2 by exact Hk0.
        apply lookup_insert_eq.
      * exact (IH1 i m H).
    + intros Hk. rewrite IH2.
      * apply lookup_insert_ne. intros ->. apply Hk. left.
      * intros H. apply Hk. right. exact H.
Qed.

(** X15. On a robot whose joints carry their keys as ids, under distinct
    keys, [state] holds the id of the robot and exactly one entry for each
    joint, under the joint's id, which is what the joint's own [state] is at
    the moment of the call; it has no entry under any other key. *)
Theorem state_reflects_joints (r : Robot) :
  NoDup (map fst (motors r)) ->
  ids_are_keys r ->
  let st := state Snapshot motor_state to_key r in
  state_id Snapshot st = id r
  /\ (forall i k m, motors r !! i = Some (k, m) ->
        state_motors Snapshot st !! k = Some (motor_state m))
  /\ (forall k, k ∉ map fst (motors r) -> state_motors Snapshot st !! k = None).
Proof.
  intros Hnd Hids. cbv zeta. cbn [state state_id state_motors].
  split; [reflexivity|]. split.
  - intros i k m H.
    exact (proj1 (collect_states_lookup (motors r) ∅ k Hnd Hids) i m H).
  - intros k H.
    rewrite (proj2 (collect_states_lookup (motors r) ∅ k Hnd Hids) H).
    apply lookup_empty.
Qed.

End StateProjection.

Lemma state_reflects_joints_witness :
  let key_of := fun v => match v with JStr s => s | _ => "" end in
  let homed := setprop "home" (JBool true) (construct calm "j1" 32%Z) in
  let r := state_of (jointEvent 1 homed EvEnabled igus3) in
  state_motors jsval (state jsval (fun m => getprop m "home") key_of r) !! "j1"
  = Some (JBool true).
Proof.
  cbv zeta.
  set (r := state_of (jointEvent 1 (setprop "home" (JBool true)
                                      (construct calm "j1" 32%Z))
                        EvEnabled igus3)).
  assert (Hnd : NoDup (map fst (motors r))).
  { vm_compute. repeat constructor; intros H.
    - repeat (apply elem_of_cons in H as [H|H]; [discriminate H|]).
      inversion H.
    - repeat (apply elem_of_cons in H as [H|H]; [discriminate H|]).
      inversion H.
    - inversion H. }
  assert (Hids : ids_are_keys r) by (repeat constructor).
  destruct (state_reflects_joints jsval (fun m => getprop m "home")
              (fun v => match v with JStr s => s | _ => "" end)
              (fun s => eq_refl) r Hnd Hids) as (_ & H & _).
  exact (H 1 "j1" _ eq_refl).
Defined.
